(** * opencode-event-push: configuration loading, interpolation and delivery

    A shallow embedding of [index.ts] (the version that exports [interpolate],
    [readConfigFile], [loadConfig], [pushToTarget] and [EventPushPlugin]) and
    the properties its specification states about it.

    Conventions.
    - JavaScript strings are modelled by [string]; the characters the code
      looks at ([{], [}], [e], [n], [v], [:]) are ASCII, so the byte view and
      the UTF-16 view of a string are scanned alike.
    - JavaScript numbers that the code computes with ([attempts], [delayMs],
      [attempt]) are integers, modelled by [Z].
    - Platform services ([process.env], [readFileSync], [JSON.parse],
      [JSON.stringify], [fetch], [path.join], [os.homedir], the logger) are
      parameters of the definitions that use them; [fetch], the timer and
      the logger are taken to settle. *)

From Stdlib Require Import ZArith Ascii Lia DecimalString.
From stdpp Require Import base option list strings gmap.

(** * The program *)

(** ** Regular expressions, as far as [interpolate] uses them *)

Module Regex.

(** The constructs of [/\{env:([^}]+)\}/]: literal characters, a negated
    one-character class, concatenation, the greedy [+] and a capture group. *)
Inductive regex : Type :=
| Lit (c : ascii)
| NotLit (c : ascii)
| Cat (r1 r2 : regex)
| Plus (r : regex)
| Group (r : regex).

(** One way of matching at the start of a string: the text consumed, the
    captured groups in order, and what is left of the input. *)
Record mres : Type := MRes {
  matched : string;
  groups : list string;
  rest : string
}.

Definition seq_mres (m1 m2 : mres) : mres :=
  MRes (matched m1 +:+ matched m2) (groups m1 ++ groups m2) (rest m2).

(** Inside a quantifier the groups of the last iteration are kept. *)
Definition iter_mres (m1 m2 : mres) : mres :=
  MRes (matched m1 +:+ matched m2) (groups m2) (rest m2).

(** Greedy iteration, in backtracking order: first the matches that go on
    with another iteration, then the one that stops here.  An iteration that
    consumed nothing is not repeated. *)
Fixpoint iterate (step : string -> list mres) (fuel : nat) (s : string)
  : list mres :=
  match fuel with
  | O => []
  | S fuel' =>
      flat_map
        (fun m1 =>
           (if Nat.ltb (String.length (rest m1)) (String.length s)
            then map (iter_mres m1) (iterate step fuel' (rest m1))
            else [])
           ++ [m1])
        (step s)
  end.

(** All matches of [r] anchored at the start of [s], in the order a
    backtracking matcher tries them. *)
Fixpoint run (r : regex) (s : string) : list mres :=
  match r with
  | Lit c =>
      match s with
      | String a t => if Ascii.eqb a c then [MRes (String a "") [] t] else []
      | EmptyString => []
      end
  | NotLit c =>
      match s with
      | String a t => if Ascii.eqb a c then [] else [MRes (String a "") [] t]
      | EmptyString => []
      end
  | Cat r1 r2 =>
      flat_map (fun m1 => map (seq_mres m1) (run r2 (rest m1))) (run r1 s)
  | Plus r1 => iterate (run r1) (String.length s) s
  | Group r1 =>
      map (fun m => MRes (matched m) (matched m :: groups m) (rest m))
          (run r1 s)
  end.

(** The match a backtracking matcher reports at the start of [s]. *)
Definition exec (r : regex) (s : string) : option mres := head (run r s).

(** The literal string [s] as a regex, followed by [k]. *)
Fixpoint lits (s : string) (k : regex) : regex :=
  match s with
  | EmptyString => k
  | String c t => Cat (Lit c) (lits t k)
  end.

(** [String.prototype.replace] with a global regex and a replacer function:
    the input is scanned from the left; at a match the replacement is emitted
    and the scan goes on after the match, otherwise one character is copied.
    After an empty match one character is copied as well. *)
Fixpoint replace_from (fuel : nat) (r : regex) (f : mres -> string)
    (s : string) : string :=
  match fuel with
  | O => s
  | S fuel' =>
      let copy :=
        match s with
        | EmptyString => EmptyString
        | String c t => String c (replace_from fuel' r f t)
        end in
      match exec r s with
      | Some m =>
          f m +:+ (if Nat.ltb (String.length (rest m)) (String.length s)
                  then replace_from fuel' r f (rest m)
                  else copy)
      | None => copy
      end
  end.

Definition replace (r : regex) (f : mres -> string) (s : string) : string :=
  replace_from (S (String.length s)) r f s.

End Regex.

(** ** JavaScript values, as far as JSON data and [interpolate] need them *)

Set Warnings "-register-all".

(** An object carries its prototype and its own enumerable properties in
    property order.  [proto = None] is the initial [Object.prototype];
    [Some VNull] is no prototype; [Some v] is the object or array [v].
    Values produced by [JSON.parse] have [proto = None] throughout.
    [interpolate] does not look inside numbers; they are integers here. *)
Inductive value : Type :=
| VNull
| VBool (b : bool)
| VNum (n : Z)
| VStr (s : string)
| VArr (items : list value)
| VObj (proto : option value) (props : list (string * value)).

(** Own-property lookup and assignment on a property list.  Assignment to an
    existing key keeps its place; a new key goes to the end, which is its
    place when keys are assigned in property order, as [interpolate] and the
    spread of [headers] do. *)
Fixpoint own_lookup {A} (k : string) (props : list (string * A))
  : option A :=
  match props with
  | [] => None
  | (k', v) :: ps => if String.eqb k k' then Some v else own_lookup k ps
  end.

Fixpoint own_store {A} (k : string) (v : A) (props : list (string * A))
  : list (string * A) :=
  match props with
  | [] => [(k, v)]
  | (k', v') :: ps =>
      if String.eqb k k' then (k', v) :: ps else (k', v') :: own_store k v ps
  end.

(** Whether an assignment to ["__proto__"] on an object with prototype [p]
    and own properties [props] finds the accessor of [Object.prototype]: it
    does unless an own data property of that name, or the end of the
    prototype chain, comes first. *)
Fixpoint proto_setter_visible (v : value) : bool :=
  match v with
  | VObj p props =>
      match own_lookup "__proto__" props with
      | Some _ => false
      | None =>
          match p with
          | None => true
          | Some q => proto_setter_visible q
          end
      end
  | VArr _ => true
  | _ => false
  end.

(** [result[k] = v] on an ordinary object [result], given as its prototype
    and own properties.  Every key but ["__proto__"] becomes (or updates) an
    own data property.  ["__proto__"] reaches the inherited setter when it is
    visible: an object, array or [null] becomes the prototype, any other value
    is ignored, and no own property is created. *)
Definition set_prop (result : option value * list (string * value))
    (k : string) (v : value) : option value * list (string * value) :=
  let '(p, props) := result in
  if String.eqb k "__proto__" && proto_setter_visible (VObj p props) then
    match v with
    | VNull | VArr _ | VObj _ _ => (Some v, props)
    | _ => (p, props)
    end
  else (p, own_store k v props).

(** [o.k] for a property name [k] that no built-in prototype defines (the
    code reads [targets], [url], [events], [retry], [headers], [attempts],
    [delayMs]); [None] is [undefined].  Reading from [null] throws and is
    handled where it can happen. *)
Fixpoint get_prop (o : value) (k : string) : option value :=
  match o with
  | VObj p props =>
      match own_lookup k props with
      | Some v => Some v
      | None =>
          match p with
          | Some q => get_prop q k
          | None => None
          end
      end
  | _ => None
  end.

(** Induction on values that reaches the elements of arrays, the
    prototype and the property values of objects. *)
Section ValueInd.
Variable P : value -> Prop.
Hypothesis HNull : P VNull.
Hypothesis HBool : forall b, P (VBool b).
Hypothesis HNum : forall n, P (VNum n).
Hypothesis HStr : forall s, P (VStr s).
Hypothesis HArr : forall items, Forall P items -> P (VArr items).
Hypothesis HObj : forall p props,
  match p with Some q => P q | None => True end ->
  Forall (fun kv => P kv.2) props -> P (VObj p props).

Fixpoint value_nested_ind (v : value) : P v :=
  match v with
  | VNull => HNull
  | VBool b => HBool b
  | VNum n => HNum n
  | VStr s => HStr s
  | VArr items =>
      HArr items
        ((fix go (l : list value) : Forall P l :=
            match l with
            | [] => @List.Forall_nil _ P
            | x :: l' => @List.Forall_cons _ P x l' (value_nested_ind x) (go l')
            end) items)
  | VObj p props =>
      HObj p props
        (match p return match p with Some q => P q | None => True end with
         | Some q => value_nested_ind q
         | None => I
         end)
        ((fix go (l : list (string * value))
            : Forall (fun kv => P kv.2) l :=
            match l with
            | [] => @List.Forall_nil _ _
            | kv :: l' =>
                @List.Forall_cons _ (fun kv => P kv.2) kv l'
                  (value_nested_ind kv.2) (go l')
            end) props)
  end.
End ValueInd.

(** ** Variable substitution *)

(** [/\{env:([^}]+)\}/] *)
Definition env_re : Regex.regex :=
  Regex.lits "{env:"
    (Regex.Cat (Regex.Group (Regex.Plus (Regex.NotLit "}"))) (Regex.Lit "}")).

(** The read [process.env[name]] as the replacer uses it: the text that
    goes into the string, [None] when the read gives [undefined].  It is an
    ordinary property read, so it finds a variable that is set and, failing
    that, whatever [process.env] inherits under that name. *)
Definition Env : Type := string -> option string.

(** [process.env] is an object whose own properties are the variables that
    are set, and whose prototype is [Object.prototype].  These are the names
    [Object.prototype] defines. *)
Definition Object_prototype_names : list string :=
  ["constructor"; "__defineGetter__"; "__defineSetter__"; "hasOwnProperty";
   "__lookupGetter__"; "__lookupSetter__"; "isPrototypeOf";
   "propertyIsEnumerable"; "toString"; "valueOf"; "__proto__";
   "toLocaleString"].

Definition inherits (name : string) : bool :=
  existsb (String.eqb name) Object_prototype_names.

(** An inherited member as a string: the accessor [__proto__] yields the
    prototype, an object, which prints as ["[object Object]"]; the other
    members are native functions ([constructor] is [Object], the others
    bear their own name), printed by the engine as [native_text] says. *)
Definition inherited_text (native_text : string -> string) (name : string)
  : option string :=
  if negb (inherits name) then None
  else if String.eqb name "__proto__" then Some "[object Object]"
  else if String.eqb name "constructor" then Some (native_text "Object")
  else Some (native_text name).

(** The read on a [process.env] with the given variables. *)
Definition env_of (variables : string -> option string)
    (native_text : string -> string) : Env :=
  fun name =>
    match variables name with
    | Some value => Some value
    | None => inherited_text native_text name
    end.

(** The replacer [(_, name) => process.env[name] ?? ...], whose fallback
    is the empty string. *)
Definition env_value (env : Env) (m : Regex.mres) : string :=
  default "" (env (hd "" (Regex.groups m))).

Fixpoint interpolate (env : Env) (v : value) : value :=
  match v with
  | VStr s => VStr (Regex.replace env_re (env_value env) s)
  | VArr items => VArr (map (interpolate env) items)
  | VObj _ props =>
      let '(p, ps) :=
        fold_left (fun result kv => set_prop result kv.1 (interpolate env kv.2))
                  props (None, []) in
      VObj p ps
  | _ => v
  end.

(** Declarative view of a token: [s] begins with [{env:NAME}] where NAME is
    one or more characters other than [}]. *)
Fixpoint str_mem (c : ascii) (s : string) : bool :=
  match s with
  | EmptyString => false
  | String a t => Ascii.eqb a c || str_mem c t
  end.

Definition token_at (s name rest : string) : Prop :=
  name <> "" /\ str_mem "}" name = false /\
  s = "{env:" +:+ name +:+ "}" +:+ rest.

Definition starts_token (s : string) : Prop :=
  exists name rest, token_at s name rest.

(** Proof-side descriptions of what the matcher computes on [[^c]+]: the
    name up to the first [c], and the backtracking list of non-empty runs. *)
Fixpoint scan_name (c : ascii) (s : string) : option (string * string) :=
  match s with
  | EmptyString => None
  | String a t =>
      if Ascii.eqb a c then Some (EmptyString, t)
      else match scan_name c t with
           | Some (n, r) => Some (String a n, r)
           | None => None
           end
  end.

Fixpoint runs_from (c : ascii) (pre s : string) : list Regex.mres :=
  match s with
  | EmptyString => []
  | String a t =>
      if Ascii.eqb a c then []
      else runs_from c (pre +:+ String a "") t
             ++ [Regex.MRes (pre +:+ String a "") [] t]
  end.

(** The capture group [([^c]+)] followed by the literal [c]. *)
Definition name_then (c : ascii) : Regex.regex :=
  Regex.Cat (Regex.Group (Regex.Plus (Regex.NotLit c))) (Regex.Lit c).

Fixpoint strip_prefix (p s : string) : option string :=
  match p, s with
  | EmptyString, _ => Some s
  | String a p', String b s' =>
      if Ascii.eqb b a then strip_prefix p' s' else None
  | String _ _, EmptyString => None
  end.

(** A string seen as the scan sees it: plain characters and tokens. *)
Inductive piece : Type :=
| Chr (c : ascii)
| Token (name : string).

Fixpoint render (ps : list piece) : string :=
  match ps with
  | [] => ""
  | Chr c :: ps' => String c (render ps')
  | Token name :: ps' => "{env:" +:+ name +:+ "}" +:+ render ps'
  end.

(** Tokens replaced by what the read of their name gives, or by the empty
    string when it gives nothing; plain characters kept. *)
Fixpoint expand (env : Env) (ps : list piece) : string :=
  match ps with
  | [] => ""
  | Chr c :: ps' => String c (expand env ps')
  | Token name :: ps' => default "" (env name) +:+ expand env ps'
  end.

(** [ps] is the left-to-right decomposition of its text: every token has a
    name of one or more characters other than [}], and a plain character is
    only taken where no token begins. *)
Fixpoint leftmost (ps : list piece) : Prop :=
  match ps with
  | [] => True
  | Chr c :: ps' => ~ starts_token (String c (render ps')) /\ leftmost ps'
  | Token name :: ps' =>
      (name <> "" /\ str_mem "}" name = false) /\ leftmost ps'
  end.

(** [/\{env:([^}]+)\}/.test(s)]: some token begins somewhere in [s]. *)
Fixpoint has_token (s : string) : bool :=
  match Regex.exec env_re s with
  | Some _ => true
  | None =>
      match s with
      | EmptyString => false
      | String _ t => has_token t
      end
  end.

(** No string leaf of [v] contains a token. *)
Fixpoint no_tokens (v : value) : bool :=
  match v with
  | VStr s => negb (has_token s)
  | VArr items => forallb no_tokens items
  | VObj p props =>
      match p with Some q => no_tokens q | None => true end
      && forallb (fun kv => no_tokens kv.2) props
  | _ => true
  end.

(** The values [JSON.parse] produces: plain objects (initial prototype) with
    pairwise distinct keys, all the way down. *)
Fixpoint is_json (v : value) : bool :=
  match v with
  | VArr items => forallb is_json items
  | VObj p props =>
      match p with Some _ => false | None => true end
      && bool_decide (NoDup (map fst props))
      && forallb (fun kv => is_json kv.2) props
  | _ => true
  end.

(** No object inside [v] has an own property named ["__proto__"]. *)
Fixpoint no_proto_key (v : value) : bool :=
  match v with
  | VArr items => forallb no_proto_key items
  | VObj p props =>
      match p with Some q => no_proto_key q | None => true end
      && forallb (fun kv => negb (String.eqb kv.1 "__proto__")
                            && no_proto_key kv.2) props
  | _ => true
  end.

(** ** Effects: a trace of calls, and exceptions *)

(** A thrown JavaScript value, as far as the code inspects it:
    [err instanceof Error], the [code] property when there is one, and
    [String(err)]. *)
Record js_error : Type := JsError {
  err_is_Error : bool;
  err_code : option string;
  err_text : string
}.

(** Computations that append to a trace of events of type [E] and either
    return or throw. *)
Definition M (E A : Type) : Type := list E -> (js_error + A) * list E.

Definition ret {E A} (a : A) : M E A := fun tr => (inr a, tr).

Definition bind {E A B} (m : M E A) (k : A -> M E B) : M E B :=
  fun tr =>
    match m tr with
    | (inr a, tr') => k a tr'
    | (inl e, tr') => (inl e, tr')
    end.

Definition throw {E A} (e : js_error) : M E A := fun tr => (inl e, tr).

Definition emit {E} (ev : E) : M E unit := fun tr => (inr tt, tr ++ [ev]).

(** [try { body } catch (err) { handler }] *)
Definition try_catch {E A} (body : M E A) (handler : js_error -> M E A)
  : M E A :=
  fun tr =>
    match body tr with
    | (inr a, tr') => (inr a, tr')
    | (inl e, tr') => handler e tr'
    end.

(** The result of a platform call that either returns or throws. *)
Definition lift {E A} (r : js_error + A) : M E A :=
  match r with
  | inr a => ret a
  | inl e => throw e
  end.

#[global] Instance M_ret {E} : MRet (M E) := fun A a => ret a.
#[global] Instance M_bind {E} : MBind (M E) := fun A B k m => bind m k.

(** ** Config loading *)

(** What the loader consults outside the program. *)
Record Platform : Type := {
  (** [process.env] *)
  process_env : Env;
  (** [readFileSync(path, "utf-8")]: the content, or the error thrown *)
  readFileSync : string -> js_error + string;
  (** [JSON.parse]: the value, or [String(err)] of the [SyntaxError] *)
  JSON_parse : string -> string + value;
  (** [String(err)] of the [TypeError] thrown when a property of [null]
      is read *)
  null_read_text : string;
  (** [os.homedir()] *)
  homedir : string;
  (** [path.join(...)] *)
  join : list string -> string
}.

(** What a call of the loader does, in order. *)
Inductive io_event : Type :=
| IoRead (path : string)
| IoParse (raw : string)
| IoWarn (message : string).

(** [PluginConfig], the typed view of a parsed file: its [targets] array.
    The elements are the parsed target objects. *)
Record PluginConfig : Type := { targets : list value }.

Definition read_file (pf : Platform) (path : string) : M io_event string :=
  emit (IoRead path);; lift (readFileSync pf path).

Definition parse_json (pf : Platform) (raw : string) : M io_event value :=
  emit (IoParse raw);;
  match JSON_parse pf raw with
  | inr v => ret v
  | inl text => throw (JsError true None text)
  end.

(** [parsed.targets]: reading a property of [null] throws a [TypeError]. *)
Definition read_targets (pf : Platform) (parsed : value)
  : M io_event (option value) :=
  match parsed with
  | VNull => throw (JsError true None (null_read_text pf))
  | _ => ret (get_prop parsed "targets")
  end.

(** [err instanceof Error && "code" in err && err.code === "ENOENT"] *)
Definition isNotFound (err : js_error) : bool :=
  err_is_Error err
  && match err_code err with
     | Some c => String.eqb c "ENOENT"
     | None => false
     end.

Definition readConfigFile (pf : Platform) (filePath : string)
  : M io_event (option PluginConfig) :=
  try_catch
    (raw ← read_file pf filePath;
     json ← parse_json pf raw;
     let parsed := interpolate (process_env pf) json in
     t ← read_targets pf parsed;
     match t with
     | Some (VArr items) => ret (Some {| targets := items |})
     | _ =>
         emit (IoWarn ("[opencode-event-push] " +:+ filePath
                       +:+ " is missing a 'targets' array — skipping"));;
         ret (Some {| targets := [] |})
     end)
    (fun err =>
       (if negb (isNotFound err)
        then emit (IoWarn ("[opencode-event-push] Could not read "
                           +:+ filePath +:+ ": " +:+ err_text err))
        else ret tt);;
       ret None).

(** [config?.targets ?? []] *)
Definition targets_or_empty (config : option PluginConfig) : list value :=
  match config with
  | Some c => targets c
  | None => []
  end.

(** [directory] is [None] when the argument is omitted.  The test
    [directory ? ... : null] is on truthiness: the empty string counts as
    no directory. *)
Definition loadConfig (pf : Platform) (directory : option string)
  : M io_event PluginConfig :=
  let globalPath :=
    join pf [homedir pf; ".config"; "opencode"; "opencode-event-push.json"] in
  globalConfig ← readConfigFile pf globalPath;
  let projectPath :=
    match directory with
    | Some d =>
        if String.eqb d "" then None
        else Some (join pf [d; "opencode-event-push.json"])
    | None => None
    end in
  projectConfig ←
    match projectPath with
    | Some p => readConfigFile pf p
    | None => ret None
    end;
  ret {| targets := targets_or_empty globalConfig
                    ++ targets_or_empty projectConfig |}.

(** The targets a config file contributes: those [readConfigFile] returns
    for it, none when it returns [null]. *)
Definition file_targets (pf : Platform) (path : string) : list value :=
  match (readConfigFile pf path []).1 with
  | inr config => targets_or_empty config
  | inl _ => []
  end.

Definition global_path (pf : Platform) : string :=
  join pf [homedir pf; ".config"; "opencode"; "opencode-event-push.json"].

Definition project_path (pf : Platform) (d : string) : string :=
  join pf [d; "opencode-event-push.json"].

(** The merged target list in the specification's words: the global
    targets, then the project targets whenever a directory argument is
    supplied.  Compared with [loadConfig] below. *)
Definition spec_loadConfig_targets (pf : Platform) (directory : option string)
  : list value :=
  file_targets pf (global_path pf)
  ++ match directory with
     | Some d => file_targets pf (project_path pf d)
     | None => []
     end.

(** What [loadConfig] takes from the project: nothing when the directory
    argument is omitted or is the empty string. *)
Definition project_targets (pf : Platform) (directory : option string)
  : list value :=
  match directory with
  | Some d => if String.eqb d "" then [] else file_targets pf (project_path pf d)
  | None => []
  end.

(** ** HTTP push with retry *)

Record RetryConfig : Type := {
  attempts : option Z;
  delayMs : option Z
}.

Record TargetConfig : Type := {
  url : string;
  events : option (list string);
  retry : option RetryConfig;
  headers : option (list (string * string))
}.

Record Request : Type := {
  req_url : string;
  req_method : string;
  req_headers : list (string * string);
  req_body : string
}.

Record Response : Type := {
  ok : bool;
  status : Z;
  statusText : string
}.

(** The second argument of [log]: [{ url, error, attempts }]. *)
Record LogExtra : Type := {
  extra_url : string;
  extra_error : string;
  extra_attempts : Z
}.

(** What one delivery does, in order. *)
Inductive net_event : Type :=
| EvFetch (req : Request)
| EvSleep (ms : Z)
| EvLog (message : string) (extra : LogExtra).

(** [`${n}`] for an integer [n]. *)
Definition show_int (n : Z) : string := NilZero.string_of_int (Z.to_int n).

(** How a loop body ends: with [return], or by falling through to the next
    iteration. *)
Inductive flow : Type := Return | Continue.

Definition is_fetch (ev : net_event) : bool :=
  match ev with EvFetch _ => true | _ => false end.

Definition is_log (ev : net_event) : bool :=
  match ev with EvLog _ _ => true | _ => false end.

(** How many requests a trace contains. *)
Definition count_fetch (tr : list net_event) : nat :=
  length (List.filter is_fetch tr).

Section Delivery.

(** The payload and [JSON.stringify] on it (which may throw). *)
Context {Payload : Type}.
Variable JSON_stringify : Payload -> js_error + string.

(** [fetch]: the outcome of a request, given how many requests this delivery
    has made before; a response, or the error it rejects with. *)
Variable fetch : nat -> Request -> js_error + Response.

(** The collaborator [log]: [None] when the promise it returns resolves,
    the rejection otherwise. *)
Variable log : string -> LogExtra -> option js_error.

Definition await_fetch (req : Request) : M net_event Response :=
  fun tr =>
    match fetch (count_fetch tr) req with
    | inr res => (inr res, tr ++ [EvFetch req])
    | inl e => (inl e, tr ++ [EvFetch req])
    end.

Definition await_log (message : string) (extra : LogExtra)
  : M net_event unit :=
  fun tr =>
    match log message extra with
    | None => (inr tt, tr ++ [EvLog message extra])
    | Some e => (inl e, tr ++ [EvLog message extra])
    end.

Definition await_timeout (delay : Z) : M net_event unit :=
  emit (EvSleep delay).

(** [{ "Content-Type": "application/json", ...headers }] *)
Definition request_headers (hs : list (string * string))
  : list (string * string) :=
  fold_left (fun acc kv => own_store kv.1 kv.2 acc) hs
            [("Content-Type", "application/json")].

(** One iteration of the loop in [pushToTarget]. *)
Definition attempt_once (url : string) (hs : list (string * string))
    (maxAttempts baseDelay : Z) (payload : Payload) (attempt : Z)
  : M net_event flow :=
  try_catch
    (body ← lift (JSON_stringify payload);
     res ← await_fetch {| req_url := url; req_method := "POST";
                          req_headers := request_headers hs;
                          req_body := body |};
     if ok res then ret Return
     else throw (JsError true None
                   ("Error: HTTP " +:+ show_int (status res) +:+ " "
                    +:+ statusText res)))
    (fun err =>
       let isLastAttempt := Z.eqb attempt (maxAttempts - 1) in
       if isLastAttempt then
         await_log
           ("Failed to push event to " +:+ url +:+ " after "
            +:+ show_int maxAttempts +:+ " attempt(s): " +:+ err_text err)
           {| extra_url := url; extra_error := err_text err;
              extra_attempts := maxAttempts |};;
         ret Return
       else
         let delay := (baseDelay * 2 ^ attempt)%Z in
         await_timeout delay;;
         ret Continue).

(** [for (let attempt = ...; attempt < maxAttempts; attempt++)], with the
    number of iterations left as the structural argument. *)
Fixpoint attempts_from (left : nat) (url : string)
    (hs : list (string * string)) (maxAttempts baseDelay : Z)
    (payload : Payload) (attempt : Z) : M net_event unit :=
  match left with
  | O => ret tt
  | S left' =>
      if Z.ltb attempt maxAttempts then
        f ← attempt_once url hs maxAttempts baseDelay payload attempt;
        match f with
        | Return => ret tt
        | Continue =>
            attempts_from left' url hs maxAttempts baseDelay payload
                          (attempt + 1)
        end
      else ret tt
  end.

Definition effective_attempts (target : TargetConfig) : Z :=
  default 3%Z (attempts (default {| attempts := None; delayMs := None |}
                                 (retry target))).

Definition effective_delay (target : TargetConfig) : Z :=
  default 500%Z (delayMs (default {| attempts := None; delayMs := None |}
                                  (retry target))).

Definition pushToTarget (target : TargetConfig) (payload : Payload)
  : M net_event unit :=
  let maxAttempts := effective_attempts target in
  let baseDelay := effective_delay target in
  attempts_from (Z.to_nat maxAttempts) (url target)
                (default [] (headers target)) maxAttempts baseDelay payload 0.

End Delivery.

(** The request [pushToTarget] sends for [target] with serialized payload
    [body]. *)
Definition post_request (target : TargetConfig) (body : string) : Request :=
  {| req_url := url target; req_method := "POST";
     req_headers := request_headers (default [] (headers target));
     req_body := body |}.

(** An attempt's outcome counts as a failure when the request rejects or
    the response is not [ok]; [String(err)] of the error the [catch] block
    then sees. *)
Definition failed (r : js_error + Response) : bool :=
  match r with
  | inl _ => true
  | inr res => negb (ok res)
  end.

Definition failure_text (r : js_error + Response) : string :=
  match r with
  | inl e => err_text e
  | inr res =>
      "Error: HTTP " +:+ show_int (status res) +:+ " " +:+ statusText res
  end.

Definition failure_message (target : TargetConfig) (text : string) : string :=
  "Failed to push event to " +:+ url target +:+ " after "
  +:+ show_int (effective_attempts target) +:+ " attempt(s): " +:+ text.

Definition failure_extra (target : TargetConfig) (text : string) : LogExtra :=
  {| extra_url := url target; extra_error := text;
     extra_attempts := effective_attempts target |}.

(** The trace of a delivery whose attempts [attempt], [attempt + 1], ... all
    fail, [left] of them being left: each request is followed by a wait,
    the last one by [final]. *)
Fixpoint backoff_trace (req : Request) (baseDelay : Z) (attempt : Z)
    (left : nat) (final : net_event) : list net_event :=
  match left with
  | O => []
  | S O => [EvFetch req; final]
  | S left' =>
      EvFetch req :: EvSleep (baseDelay * 2 ^ attempt)
        :: backoff_trace req baseDelay (attempt + 1) left' final
  end.

(** [sub] occurs in [s]. *)
Definition contains (sub s : string) : Prop :=
  exists pre post, s = pre +:+ sub +:+ post.

(** The waits in a trace, in order. *)
Definition delays (tr : list net_event) : list Z :=
  omap (fun ev => match ev with EvSleep ms => Some ms | _ => None end) tr.

(** The start of a delivery whose first [k] attempts fail and are not the
    last: [k] requests, each followed by its wait. *)
Definition retry_prefix (req : Request) (baseDelay : Z) (first k : nat)
  : list net_event :=
  flat_map (fun j => [EvFetch req; EvSleep (baseDelay * 2 ^ Z.of_nat j)])
           (seq first k).

(** What the failure report gives back to the [await]: the call of [log]
    resolves or rejects. *)
Definition log_result (log : string -> LogExtra -> option js_error)
    (target : TargetConfig) (text : string) : js_error + unit :=
  match log (failure_message target text) (failure_extra target text) with
  | None => inr tt
  | Some e => inl e
  end.

(** Every call of [log] recorded in [tr] resolved. *)
Definition logs_resolved (log : string -> LogExtra -> option js_error)
    (tr : list net_event) : Prop :=
  Forall (fun ev =>
            match ev with
            | EvLog message extra => log message extra = None
            | _ => True
            end) tr.

(** ** Plugin *)

(** The typed view of a parsed target object, [TargetConfig].  A value
    that does not have this shape has no typed view; the code relies on the
    declared type and does not check it. *)
Definition as_string (v : value) : option string :=
  match v with
  | VStr s => Some s
  | _ => None
  end.

(** An optional integer property: absent, or a number. *)
Definition as_optional_int (v : option value) : option (option Z) :=
  match v with
  | None => Some None
  | Some (VNum n) => Some (Some n)
  | Some _ => None
  end.

Definition as_RetryConfig (v : value) : option RetryConfig :=
  match v with
  | VObj _ _ =>
      a ← as_optional_int (get_prop v "attempts");
      d ← as_optional_int (get_prop v "delayMs");
      Some {| attempts := a; delayMs := d |}
  | _ => None
  end.

Definition as_headers (v : value) : option (list (string * string)) :=
  match v with
  | VObj _ props => mapM (fun kv => s ← as_string kv.2; Some (kv.1, s)) props
  | _ => None
  end.

Definition as_optional {A} (view : value -> option A) (v : option value)
  : option (option A) :=
  match v with
  | None => Some None
  | Some x => Some <$> view x
  end.

Definition as_events (v : value) : option (list string) :=
  match v with
  | VArr items => mapM as_string items
  | _ => None
  end.

Definition as_TargetConfig (v : value) : option TargetConfig :=
  match v with
  | VObj _ _ =>
      u ← get_prop v "url" ≫= as_string;
      e ← as_optional as_events (get_prop v "events");
      r ← as_optional as_RetryConfig (get_prop v "retry");
      h ← as_optional as_headers (get_prop v "headers");
      Some {| url := u; events := e; retry := r; headers := h |}
  | _ => None
  end.

(** The argument of [client.app.log]: [{ body: { service, level, message,
    extra } }]. *)
Record LogBody : Type := {
  service : string;
  level : string;
  message : string;
  extra : LogExtra
}.

(** One settled delivery: the target, how the promise of [pushToTarget]
    settled, and what the delivery did. *)
Record delivery : Type := {
  delivered_to : TargetConfig;
  outcome : js_error + unit;
  trace : list net_event
}.

(** [Promise.allSettled]: fulfils with the list of outcomes, whatever they
    are. *)
Definition allSettled (outcomes : list (js_error + unit))
  : js_error + list (js_error + unit) :=
  inr outcomes.

(** The handler stored under [event] in the hooks object: a closure over
    the loaded [targets]. *)
Record EventHook : Type := { hook_targets : list value }.

(** The object the plugin returns: [{}] or [{ event: ... }]. *)
Record Hooks : Type := { event : option EventHook }.

(** What a call of the handler by the host amounts to. *)
Inductive hook_call : Type :=
| NoHandler
| IllTyped
| Handled (completion : js_error + unit) (deliveries : list delivery).

Section Plugin.

(** The host's events, the [type] field every event carries, and
    [JSON.stringify] on events. *)
Context {Event : Type}.
Variable type : Event -> string.
Variable JSON_stringify : Event -> js_error + string.

(** [client.app.log]: [None] when the promise resolves, the rejection
    otherwise. *)
Variable app_log : LogBody -> option js_error.

(** The network as each delivery sees it: delivery [i] of an event gets
    the outcomes [network i]. *)
Variable network : nat -> nat -> Request -> js_error + Response.

Definition log (message : string) (extra : LogExtra) : option js_error :=
  app_log {| service := "opencode-event-push"; level := "warn";
             message := message; extra := extra |}.

(** [!t.events || t.events.length === 0 || t.events.includes(event.type)] *)
Definition event_matches (event : Event) (t : TargetConfig) : bool :=
  match events t with
  | None => true
  | Some evs =>
      Nat.eqb (length evs) 0 || existsb (fun e => String.eqb e (type event)) evs
  end.

(** The handler on typed targets.  The deliveries run concurrently; each
    is recorded with its own trace. *)
Definition event_hook (targets : list TargetConfig) (event : Event)
  : (js_error + unit) * list delivery :=
  let matchingTargets := List.filter (event_matches event) targets in
  if Nat.eqb (length matchingTargets) 0 then (inr tt, [])
  else
    let deliveries :=
      imap (fun i target =>
              let out := pushToTarget JSON_stringify (network i) log
                                      target event [] in
              {| delivered_to := target; outcome := out.1; trace := out.2 |})
           matchingTargets in
    (match allSettled (map outcome deliveries) with
     | inr _ => inr tt
     | inl e => inl e
     end,
     deliveries).

Definition EventPushPlugin (pf : Platform) (directory : option string)
  : M io_event Hooks :=
  config ← loadConfig pf directory;
  if Nat.eqb (length (targets config)) 0 then ret {| event := None |}
  else ret {| event := Some {| hook_targets := targets config |} |}.

(** The host delivering an event to the hooks it was given. *)
Definition call_event (hooks : Hooks) (ev : Event) : hook_call :=
  match event hooks with
  | None => NoHandler
  | Some hook =>
      match mapM as_TargetConfig (hook_targets hook) with
      | Some typed =>
          let out := event_hook typed ev in Handled out.1 out.2
      | None => IllTyped
      end
  end.

End Plugin.

(** ** Data for the examples *)

Module Sample.

(** A reader for the JSON texts used in the examples: literals, integers,
    strings with the one-character escapes, arrays and objects.  Anything
    else is reported as a syntax error. *)
Definition dq : ascii := "034"%char.

Definition quoted (s : string) : string := String dq s +:+ String dq "".

Fixpoint skip_ws (s : string) : string :=
  match s with
  | String c t => if Ascii.is_space c then skip_ws t else s
  | EmptyString => s
  end.

Fixpoint string_body (s : string) : option (string * string) :=
  match s with
  | EmptyString => None
  | String c t =>
      if Ascii.eqb c dq then Some (EmptyString, t)
      else if Ascii.eqb c "\" then
        match t with
        | String e t' =>
            let unescaped :=
              if Ascii.eqb e "n" then Some "010"%char
              else if Ascii.eqb e "t" then Some "009"%char
              else if Ascii.eqb e "r" then Some "013"%char
              else if Ascii.eqb e dq || Ascii.eqb e "\" || Ascii.eqb e "/"
                   then Some e
              else None in
            match unescaped, string_body t' with
            | Some u, Some (body, r) => Some (String u body, r)
            | _, _ => None
            end
        | EmptyString => None
        end
      else match string_body t with
           | Some (body, r) => Some (String c body, r)
           | None => None
           end
  end.

Fixpoint digits (acc : Z) (s : string) : Z * string :=
  match s with
  | String c t =>
      match Ascii.is_nat c with
      | Some d => digits (10 * acc + Z.of_nat d) t
      | None => (acc, s)
      end
  | EmptyString => (acc, s)
  end.

Definition number (s : string) : option (Z * string) :=
  let '(neg, s1) :=
    match s with
    | String "-" t => (true, t)
    | _ => (false, s)
    end in
  match s1 with
  | String c t =>
      match Ascii.is_nat c with
      | Some 0 => Some (0%Z, t)
      | Some _ => let '(n, r) := digits 0 s1 in
                  Some (if neg then (- n)%Z else n, r)
      | None => None
      end
  | EmptyString => None
  end.

Fixpoint parse_value (fuel : nat) (s : string) : option (value * string) :=
  match fuel with
  | O => None
  | S fuel' =>
      let s := skip_ws s in
      match strip_prefix "null" s, strip_prefix "true" s,
            strip_prefix "false" s with
      | Some r, _, _ => Some (VNull, r)
      | _, Some r, _ => Some (VBool true, r)
      | _, _, Some r => Some (VBool false, r)
      | _, _, _ =>
          match s with
          | String "[" t =>
              match skip_ws t with
              | String "]" r => Some (VArr [], r)
              | _ =>
                  match parse_elements fuel' t with
                  | Some (items, r) => Some (VArr items, r)
                  | None => None
                  end
              end
          | String "{" t =>
              match skip_ws t with
              | String "}" r => Some (VObj None [], r)
              | _ =>
                  match parse_members fuel' [] t with
                  | Some (props, r) => Some (VObj None props, r)
                  | None => None
                  end
              end
          | String c t =>
              if Ascii.eqb c dq then
                match string_body t with
                | Some (body, r) => Some (VStr body, r)
                | None => None
                end
              else
                match number s with
                | Some (n, r) => Some (VNum n, r)
                | None => None
                end
          | EmptyString => None
          end
      end
  end
with parse_elements (fuel : nat) (s : string)
  : option (list value * string) :=
  match fuel with
  | O => None
  | S fuel' =>
      match parse_value fuel' s with
      | Some (v, r) =>
          match skip_ws r with
          | String "]" r' => Some ([v], r')
          | String "," r' =>
              match parse_elements fuel' r' with
              | Some (items, r'') => Some (v :: items, r'')
              | None => None
              end
          | _ => None
          end
      | None => None
      end
  end
with parse_members (fuel : nat) (acc : list (string * value)) (s : string)
  : option (list (string * value) * string) :=
  match fuel with
  | O => None
  | S fuel' =>
      match skip_ws s with
      | String c t =>
          if Ascii.eqb c dq then
            match string_body t with
            | Some (key, r) =>
                match skip_ws r with
                | String ":" r1 =>
                    match parse_value fuel' r1 with
                    | Some (v, r2) =>
                        let acc' := own_store key v acc in
                        match skip_ws r2 with
                        | String "}" r3 => Some (acc', r3)
                        | String "," r3 => parse_members fuel' acc' r3
                        | _ => None
                        end
                    | None => None
                    end
                | _ => None
                end
            | None => None
            end
          else None
      | EmptyString => None
      end
  end.

Definition parse (raw : string) : string + value :=
  match parse_value (4 * String.length raw + 4) raw with
  | Some (v, r) =>
      match skip_ws r with
      | EmptyString => inr v
      | _ => inl "SyntaxError: JSON Parse error: Unexpected trailing text"
      end
  | None => inl "SyntaxError: JSON Parse error: Unexpected token"
  end.

(** A file system given by a list of paths and contents; any other path
    does not exist. *)
Definition enoent (path : string) : js_error :=
  JsError true (Some "ENOENT")
    ("Error: ENOENT: no such file or directory, open '" +:+ path +:+ "'").

Fixpoint read_from (files : list (string * string)) (path : string)
  : js_error + string :=
  match files with
  | [] => inl (enoent path)
  | (p, content) :: fs =>
      if String.eqb path p then inr content else read_from fs path
  end.

(** [path.join] on segments that need no normalising. *)
Fixpoint join_segments (segs : list string) : string :=
  match segs with
  | [] => "."
  | [s] => s
  | s :: rest =>
      if String.eqb s "" then join_segments rest
      else s +:+ "/" +:+ join_segments rest
  end.

(** A native function as V8 prints it. *)
Definition native_text (name : string) : string :=
  "function " +:+ name +:+ "() { [native code] }".

Definition platform (env : gmap string string) (files : list (string * string))
  : Platform :=
  {| process_env := env_of (fun name => env !! name) native_text;
     readFileSync := read_from files;
     JSON_parse := parse;
     null_read_text :=
       "TypeError: null is not an object (evaluating 'parsed.targets')";
     homedir := "/home/testuser";
     join := join_segments |}.

End Sample.

(** Two config files for the examples. *)
Definition sample_global_config : string :=
  "{" +:+ Sample.quoted "targets" +:+ ": [{" +:+ Sample.quoted "url" +:+ ": "
  +:+ Sample.quoted "https://global.example.com" +:+ "}]}".

Definition sample_project_config : string :=
  "{" +:+ Sample.quoted "targets" +:+ ": [{" +:+ Sample.quoted "url" +:+ ": "
  +:+ Sample.quoted "https://project.example.com" +:+ "}]}".

(** The environment of the examples. *)
Definition sample_vars : gmap string string :=
  <["TEST_VAR" := "hello"]> (<["ANOTHER_VAR" := "world"]> ∅).

Definition sample_env : Env :=
  env_of (fun name => sample_vars !! name) Sample.native_text.

Definition sample_files : list (string * string) :=
  [("/home/testuser/.config/opencode/opencode-event-push.json",
    sample_global_config);
   ("/proj/opencode-event-push.json", sample_project_config);
   ("/bad-targets.json",
    "{" +:+ Sample.quoted "targets" +:+ ": " +:+ Sample.quoted "oops" +:+ "}");
   ("/env.json",
    "{" +:+ Sample.quoted "targets" +:+ ": [{" +:+ Sample.quoted "url"
    +:+ ": " +:+ Sample.quoted "{env:TEST_VAR}" +:+ "}]}");
   ("/null.json", "null")].

(** A file system on which one path cannot be read for lack of
    permission. *)
Definition denied (path : string) : js_error + string :=
  if String.eqb path "/bad.json"
  then inl (JsError true (Some "EACCES") "Error: EACCES: permission denied")
  else inl (Sample.enoent path).

Definition fails_then_ok (i : nat) (req : Request) : js_error + Response :=
  match i with
  | O => inl (JsError true None "Error: network failure")
  | S _ => inr {| ok := true; status := 200; statusText := "OK" |}
  end.

(** A target, a failing network and a failing logger for the examples. *)
Definition sample_target : TargetConfig :=
  {| url := "https://hook.example.com/push"; events := None;
     retry := Some {| attempts := Some 3%Z; delayMs := Some 500%Z |};
     headers := None |}.

Definition always_fails (i : nat) (req : Request) : js_error + Response :=
  if Nat.even i then inl (JsError true None "Error: always fails")
  else inr {| ok := false; status := 503;
              statusText := "Service Unavailable" |}.

Definition log_resolves (message : string) (extra : LogExtra)
  : option js_error := None.

Definition log_rejects (message : string) (extra : LogExtra)
  : option js_error := Some (JsError true None "Error: logger unavailable").

(** Two targets and a network for the dispatch example. *)
Definition target_a : TargetConfig :=
  {| url := "https://a.example.com"; events := Some []; retry := None;
     headers := None |}.

Definition target_b : TargetConfig :=
  {| url := "https://b.example.com"; events := Some ["x"]; retry := None;
     headers := None |}.

Definition always_ok (i : nat) (req : Request) : js_error + Response :=
  inr {| ok := true; status := 200; statusText := "OK" |}.

(** ** Views of traces *)

(** The paths read, the texts parsed and the warnings printed, in order. *)
Definition reads (tr : list io_event) : list string :=
  omap (fun ev => match ev with IoRead p => Some p | _ => None end) tr.

Definition parses (tr : list io_event) : list string :=
  omap (fun ev => match ev with IoParse raw => Some raw | _ => None end) tr.

Definition warnings (tr : list io_event) : list string :=
  omap (fun ev => match ev with IoWarn m => Some m | _ => None end) tr.

(** The requests sent and the calls of [log] made, in order. *)
Definition requests (tr : list net_event) : list Request :=
  omap (fun ev => match ev with EvFetch r => Some r | _ => None end) tr.

Definition log_calls (tr : list net_event) : list (string * LogExtra) :=
  omap (fun ev => match ev with EvLog m x => Some (m, x) | _ => None end) tr.


(** ** The earlier version of the plugin ([src/index.ts]) *)

Module V1.

(** [loadConfig()] of the earlier version: one file next to the plugin, no
    variable substitution, and [{ targets: [] }] from the [catch] block.
    [dirname] is [__dirname], the directory of the module. *)
Definition loadConfig (pf : Platform) (dirname : string)
  : M io_event PluginConfig :=
  let configPath := join pf [dirname; ".."; "event-push.json"] in
  try_catch
    (raw ← read_file pf configPath;
     parsed ← parse_json pf raw;
     t ← read_targets pf parsed;
     match t with
     | Some (VArr items) => ret {| targets := items |}
     | _ =>
         emit (IoWarn ("[opencode-event-push] event-push.json is missing a "
                       +:+ "'targets' array — plugin is a no-op"));;
         ret {| targets := [] |}
     end)
    (fun err =>
       (if negb (isNotFound err)
        then emit (IoWarn ("[opencode-event-push] Could not read "
                           +:+ "event-push.json: " +:+ err_text err))
        else ret tt);;
       ret {| targets := [] |}).

Definition config_path (pf : Platform) (dirname : string) : string :=
  join pf [dirname; ".."; "event-push.json"].

End V1.

(** A target configured with zero attempts, and a payload that cannot be
    serialized. *)
Definition target_no_attempts : TargetConfig :=
  {| url := "https://hook.example.com/push"; events := None;
     retry := Some {| attempts := Some 0%Z; delayMs := None |};
     headers := None |}.


(** ** The test server ([test-server.ts]) *)

Module TestServer.

(** ANSI helpers: the table [c]. *)
Definition esc : ascii := "027"%char.
Definition reset : string := String esc "[0m".
Definition bold : string := String esc "[1m".
Definition dim : string := String esc "[2m".
Definition cyan : string := String esc "[36m".
Definition yellow : string := String esc "[33m".
Definition green : string := String esc "[32m".
Definition red : string := String esc "[31m".
Definition magenta : string := String esc "[35m".

(** [s.startsWith(prefix)] *)
Definition startsWith (s prefix : string) : bool :=
  match strip_prefix prefix s with
  | Some _ => true
  | None => false
  end.

Definition colorForEventType (type : string) : string :=
  if startsWith type "session." then cyan
  else if startsWith type "tool." then yellow
  else if startsWith type "message." then magenta
  else if startsWith type "file." then green
  else if startsWith type "permission." then red
  else reset.

(** [s.replace(pat, rep)] with a string pattern: the first occurrence only. *)
Fixpoint replace_first (pat rep s : string) : string :=
  match strip_prefix pat s with
  | Some rest => rep +:+ rest
  | None =>
      match s with
      | EmptyString => EmptyString
      | String c t => String c (replace_first pat rep t)
      end
  end.

(** [timestamp()], given [new Date().toISOString()]. *)
Definition timestamp (iso : string) : string :=
  replace_first "Z" "" (replace_first "T" " " iso).

(** [s.repeat(n)] *)
Fixpoint repeat_string (n : nat) (s : string) : string :=
  match n with
  | O => EmptyString
  | S n' => s +:+ repeat_string n' s
  end.

Definition newline : ascii := "010"%char.

(** [s.split("\n")]: the current line is accumulated in [line]. *)
Fixpoint split_from (line s : string) : list string :=
  match s with
  | EmptyString => [line]
  | String c t =>
      if Ascii.eqb c newline then line :: split_from EmptyString t
      else split_from (line +:+ String c EmptyString) t
  end.

Definition split_lines (s : string) : list string := split_from EmptyString s.

(** [lines.join("\n")] *)
Fixpoint join_lines (lines : list string) : string :=
  match lines with
  | [] => EmptyString
  | [l] => l
  | l :: rest => l +:+ String newline (join_lines rest)
  end.

(** [text.split("\n").map(l => "  " + l).join("\n")] *)
Definition indent (text : string) : string :=
  join_lines (map (fun l => "  " +:+ l) (split_lines text)).

(** Whether the character [c] does not occur in [s]. *)
Fixpoint free_of (c : ascii) (s : string) : bool :=
  match s with
  | EmptyString => true
  | String x t => negb (Ascii.eqb x c) && free_of c t
  end.

(** The mutable counter [eventCount] and what [console.log] has printed,
    one entry for each call. *)
Record state : Type := {
  eventCount : Z;
  console : list string
}.

Record HttpRequest : Type := {
  method : string;
  body_text : string
}.

Record HttpResponse : Type := {
  response_status : Z;
  response_body : string
}.

Section Server.

(** [req.json()] on a body text: the value, or the text of the error;
    [new Date().toISOString()] at the time event number [n] is printed;
    [JSON.stringify(body, null, 2)]; and [String(err)] of the [TypeError]
    thrown when a property of [null] is read. *)
Variable parse : string -> string + value.
Variable clock : Z -> string.
Variable pretty : value -> string.
Variable null_read_text : string.

Definition event_type (body : value) : string :=
  match get_prop body "type" with
  | Some (VStr t) => t
  | _ => "unknown"
  end.

Definition header (count : Z) (type : string) : string :=
  (dim +:+ "[" +:+ timestamp (clock count) +:+ "]" +:+ reset +:+ "  ")
  +:+ (bold +:+ "#" +:+ show_int count +:+ reset +:+ "  ")
  +:+ (colorForEventType type +:+ bold +:+ type +:+ reset).

Definition divider : string := dim +:+ repeat_string 60 "─" +:+ reset.

(** [printEvent(body)]: the counter goes up first; reading [type] from
    [null] throws before anything is printed. *)
Definition printEvent (body : value) (st : state)
  : (js_error + unit) * state :=
  let count := (eventCount st + 1)%Z in
  match body with
  | VNull =>
      (inl (JsError true None null_read_text),
       {| eventCount := count; console := console st |})
  | _ =>
      let type := event_type body in
      (inr tt,
       {| eventCount := count;
          console := console st
                     ++ [divider; header count type;
                         dim +:+ indent (pretty body) +:+ reset] |})
  end.

(** The [fetch] handler of the server. *)
Definition handle (req : HttpRequest) (st : state)
  : (js_error + HttpResponse) * state :=
  if negb (String.eqb (method req) "POST") then
    (inr {| response_status := 405;
            response_body := "Method Not Allowed — send POST requests here."
                             +:+ String newline "" |}, st)
  else
    match parse (body_text req) with
    | inl _ =>
        (inr {| response_status := 400;
                response_body := "Bad Request — body must be valid JSON."
                                 +:+ String newline "" |}, st)
    | inr body =>
        match printEvent body st with
        | (inl e, st') => (inl e, st')
        | (inr _, st') =>
            (inr {| response_status := 200;
                    response_body := "OK" +:+ String newline "" |}, st')
        end
    end.

(** The server handling requests one after the other. *)
Fixpoint serve (reqs : list HttpRequest) (st : state) : state :=
  match reqs with
  | [] => st
  | req :: rest => serve rest (handle req st).2
  end.

(** Whether a request gets as far as [printEvent], and whether
    [printEvent] gets as far as printing. *)
Definition reaches_print (req : HttpRequest) : bool :=
  String.eqb (method req) "POST"
  && match parse (body_text req) with inr _ => true | inl _ => false end.

Definition prints (req : HttpRequest) : bool :=
  String.eqb (method req) "POST"
  && match parse (body_text req) with
     | inr VNull => false
     | inr _ => true
     | inl _ => false
     end.

(** The request of [pushToTarget] as the server receives it, and the
    server's answer as [fetch] hands it to the plugin: [ok] is a status
    from 200 to 299, [statusText] the reason phrase that goes with the
    status; an exception in the handler is answered with 500. *)
Variable reason : Z -> string.

Definition received (r : Request) : HttpRequest :=
  {| method := req_method r; body_text := req_body r |}.

Definition answer (st : state) (i : nat) (r : Request)
  : js_error + Response :=
  let status :=
    match (handle (received r) st).1 with
    | inr resp => response_status resp
    | inl _ => 500%Z
    end in
  inr {| ok := Z.leb 200 status && Z.leb status 299;
         status := status; statusText := reason status |}.

End Server.

End TestServer.

(** * Properties *)

(** ** The matcher on the token pattern *)

Import Regex.

Lemma append_cons (a : ascii) (s t : string) :
  String a s +:+ t = String a (s +:+ t).
Proof. reflexivity. Qed.

Lemma append_nil_l (t : string) : "" +:+ t = t.
Proof. reflexivity. Qed.

Lemma append_nil_r (s : string) : s +:+ "" = s.
Proof.
  induction s as [|a s IH]; [reflexivity|].
  now rewrite append_cons, IH.
Qed.

Lemma append_assoc (a b c : string) : (a +:+ b) +:+ c = a +:+ (b +:+ c).
Proof.
  induction a as [|x a IH]; [reflexivity|].
  now rewrite !append_cons, IH.
Qed.

Lemma append_length (a b : string) :
  String.length (a +:+ b) = String.length a + String.length b.
Proof.
  induction a as [|x a IH]; [reflexivity|].
  rewrite append_cons. simpl. now rewrite IH.
Qed.

Create Rewrite HintDb str.
#[global] Hint Rewrite append_cons append_nil_l append_nil_r append_assoc : str.

Lemma run_Cat (r1 r2 : regex) (s : string) :
  run (Cat r1 r2) s
  = flat_map (fun m1 => map (seq_mres m1) (run r2 (rest m1))) (run r1 s).
Proof. reflexivity. Qed.

Lemma run_Group (r : regex) (s : string) :
  run (Group r) s
  = map (fun m => MRes (matched m) (matched m :: groups m) (rest m)) (run r s).
Proof. reflexivity. Qed.

Lemma run_Plus (r : regex) (s : string) :
  run (Plus r) s = iterate (run r) (String.length s) s.
Proof. reflexivity. Qed.

Lemma runs_from_iter (c : ascii) (m1 : mres) (pre s : string) :
  map (iter_mres m1) (runs_from c pre s)
  = runs_from c (matched m1 +:+ pre) s.
Proof.
  revert pre; induction s as [|a t IH]; intros pre; simpl; [reflexivity|].
  destruct (Ascii.eqb a c); [reflexivity|].
  rewrite map_app, IH, append_assoc. reflexivity.
Qed.

Lemma iterate_notlit (c : ascii) (fuel : nat) (s : string) :
  String.length s <= fuel ->
  iterate (run (NotLit c)) fuel s = runs_from c "" s.
Proof.
  revert s; induction fuel as [|fuel IH]; intros s Hlen.
  - destruct s; simpl in *; [reflexivity | lia].
  - destruct s as [|a t]; simpl; [reflexivity|].
    destruct (Ascii.eqb a c); simpl; [reflexivity|].
    rewrite app_nil_r.
    replace (String.length t <? S (String.length t)) with true
      by (symmetry; apply Nat.ltb_lt; lia).
    rewrite IH by (simpl in Hlen; lia).
    rewrite runs_from_iter. reflexivity.
Qed.

Lemma runs_from_then (c : ascii) (pre s : string) :
  flat_map
    (fun m1 => map (seq_mres m1) (run (Lit c) (rest m1)))
    (map (fun m => MRes (matched m) (matched m :: groups m) (rest m))
         (runs_from c pre s))
  = match scan_name c s with
    | Some (String a n, r) =>
        [MRes ((pre +:+ String a n) +:+ String c "") [pre +:+ String a n] r]
    | _ => []
    end.
Proof.
  revert pre; induction s as [|a t IH]; intros pre; simpl; [reflexivity|].
  destruct (Ascii.eqb a c) eqn:Ea; [reflexivity|].
  rewrite map_app, flat_map_app, IH. simpl. rewrite app_nil_r.
  destruct t as [|b r]; simpl; [reflexivity|].
  destruct (Ascii.eqb b c) eqn:Eb; simpl.
  - apply Ascii.eqb_eq in Eb; subst b. reflexivity.
  - destruct (scan_name c r) as [[n r']|]; simpl; [|reflexivity].
    unfold seq_mres; simpl. autorewrite with str.
    reflexivity.
Qed.

Lemma run_name_then (c : ascii) (s : string) :
  run (name_then c) s
  = match scan_name c s with
    | Some (String a n, r) =>
        [MRes (String a n +:+ String c "") [String a n] r]
    | _ => []
    end.
Proof.
  unfold name_then.
  rewrite run_Cat, run_Group, run_Plus, iterate_notlit by lia.
  apply (runs_from_then c "" s).
Qed.


(** ** Tokens *)

Lemma strip_prefix_app (p t : string) : strip_prefix p (p +:+ t) = Some t.
Proof.
  induction p as [|a p IH]; [reflexivity|].
  rewrite append_cons. simpl. now rewrite Ascii.eqb_refl.
Qed.

Lemma strip_prefix_Some (p s t : string) :
  strip_prefix p s = Some t -> s = p +:+ t.
Proof.
  revert s; induction p as [|a p IH]; intros s H; simpl in H.
  - now inversion H.
  - destruct s as [|b s]; [discriminate|].
    destruct (Ascii.eqb b a) eqn:E; [|discriminate].
    apply Ascii.eqb_eq in E; subst b.
    rewrite append_cons. f_equal. now apply IH.
Qed.

Lemma scan_name_app (c : ascii) (n r : string) :
  str_mem c n = false -> scan_name c (n +:+ String c r) = Some (n, r).
Proof.
  induction n as [|a n IH]; intros H.
  - simpl. now rewrite Ascii.eqb_refl.
  - simpl in H. apply orb_false_iff in H as [Ha Hn].
    rewrite append_cons. simpl. now rewrite Ha, IH.
Qed.

Lemma scan_name_Some (c : ascii) (s n r : string) :
  scan_name c s = Some (n, r) -> s = n +:+ String c r /\ str_mem c n = false.
Proof.
  revert n; induction s as [|a s IH]; intros n H; simpl in H; [discriminate|].
  destruct (Ascii.eqb a c) eqn:E.
  - inversion H; subst. apply Ascii.eqb_eq in E; subst. now split.
  - destruct (scan_name c s) as [[n' r']|]; [|discriminate].
    inversion H; subst. destruct (IH n' eq_refl) as [-> Hn].
    split; [now rewrite append_cons|]. simpl. now rewrite E.
Qed.

Lemma run_lits (p : string) (k : regex) (s : string) :
  run (lits p k) s
  = match strip_prefix p s with
    | Some t =>
        map (fun m => MRes (p +:+ matched m) (groups m) (rest m)) (run k t)
    | None => []
    end.
Proof.
  revert s; induction p as [|a p IH]; intros s.
  - simpl. induction (run k s) as [|[m g r] l IHl]; [reflexivity|].
    simpl. now rewrite <- IHl.
  - simpl lits. rewrite run_Cat. destruct s as [|b s]; [reflexivity|].
    simpl. destruct (Ascii.eqb b a) eqn:E; [|reflexivity].
    apply Ascii.eqb_eq in E; subst b.
    simpl. rewrite app_nil_r, IH.
    destruct (strip_prefix p s); [|reflexivity].
    rewrite map_map. reflexivity.
Qed.

(** What the matcher reports for the token pattern at the start of [s]. *)
Lemma exec_env_re (s : string) :
  exec env_re s
  = match strip_prefix "{env:" s with
    | Some t =>
        match scan_name "}" t with
        | Some (String a n, r) =>
            Some (MRes ("{env:" +:+ String a n +:+ "}") [String a n] r)
        | _ => None
        end
    | None => None
    end.
Proof.
  unfold exec. change env_re with (lits "{env:" (name_then "}")).
  rewrite run_lits. destruct (strip_prefix "{env:" s) as [t|]; [|reflexivity].
  rewrite run_name_then.
  destruct (scan_name "}" t) as [[[|a n] r]|]; reflexivity.
Qed.

Lemma exec_token (s name rest : string) :
  token_at s name rest ->
  exec env_re s = Some (MRes ("{env:" +:+ name +:+ "}") [name] rest).
Proof.
  intros (Hne & Hmem & ->). rewrite exec_env_re, strip_prefix_app.
  change ("}" +:+ rest) with (String "}" rest).
  rewrite scan_name_app by exact Hmem.
  destruct name; [congruence | reflexivity].
Qed.

Lemma exec_Some (s : string) (m : mres) :
  exec env_re s = Some m ->
  exists name,
    token_at s name (rest m) /\
    m = MRes ("{env:" +:+ name +:+ "}") [name] (rest m).
Proof.
  rewrite exec_env_re. intros H.
  destruct (strip_prefix "{env:" s) as [t|] eqn:Es; [|discriminate].
  destruct (scan_name "}" t) as [[[|a n] r]|] eqn:En; try discriminate.
  inversion H; subst m; clear H. simpl.
  apply strip_prefix_Some in Es. apply scan_name_Some in En as [-> Hn].
  exists (String a n). split; [|reflexivity].
  repeat split; [discriminate | exact Hn | exact Es].
Qed.

Lemma exec_None (s : string) : exec env_re s = None -> ~ starts_token s.
Proof.
  intros H (name & r & Ht). apply exec_token in Ht. congruence.
Qed.


(** ** The global replace on the token pattern *)

Lemma replace_from_S (fuel : nat) (r : regex) (f : mres -> string)
    (s : string) :
  replace_from (S fuel) r f s
  = let copy :=
      match s with
      | EmptyString => EmptyString
      | String c t => String c (replace_from fuel r f t)
      end in
    match exec r s with
    | Some m =>
        f m +:+ (if Nat.ltb (String.length (rest m)) (String.length s)
                 then replace_from fuel r f (rest m)
                 else copy)
    | None => copy
    end.
Proof. reflexivity. Qed.

(** Any fuel above the length of the input gives the same result. *)
Lemma replace_from_fuel (r : regex) (f : mres -> string) (n1 n2 : nat)
    (s : string) :
  String.length s < n1 -> String.length s < n2 ->
  replace_from n1 r f s = replace_from n2 r f s.
Proof.
  revert n2 s; induction n1 as [|n1 IH]; intros n2 s H1 H2; [lia|].
  destruct n2 as [|n2]; [lia|].
  rewrite !replace_from_S. cbv zeta.
  assert (Hcopy :
    match s with
    | EmptyString => EmptyString
    | String c t => String c (replace_from n1 r f t)
    end =
    match s with
    | EmptyString => EmptyString
    | String c t => String c (replace_from n2 r f t)
    end).
  { destruct s as [|c t]; [reflexivity|]. simpl in H1, H2.
    f_equal. apply IH; lia. }
  destruct (exec r s) as [m|]; [|exact Hcopy].
  f_equal. destruct (Nat.ltb_spec (String.length (rest m)) (String.length s)).
  - apply IH; lia.
  - exact Hcopy.
Qed.

Lemma replace_empty (f : mres -> string) : replace env_re f "" = "".
Proof. reflexivity. Qed.

Lemma replace_chr (f : mres -> string) (c : ascii) (t : string) :
  ~ starts_token (String c t) ->
  replace env_re f (String c t) = String c (replace env_re f t).
Proof.
  intros Hno. unfold replace. rewrite replace_from_S. cbv zeta.
  destruct (exec env_re (String c t)) as [m|] eqn:E; [|reflexivity].
  exfalso. apply Hno. apply exec_Some in E as (name & Ht & _).
  now exists name, (rest m).
Qed.

Lemma replace_token (f : mres -> string) (s name tl : string) :
  token_at s name tl ->
  replace env_re f s
  = f (MRes ("{env:" +:+ name +:+ "}") [name] tl) +:+ replace env_re f tl.
Proof.
  intros Ht. unfold replace. rewrite replace_from_S. cbv zeta.
  rewrite (exec_token _ _ _ Ht). simpl rest.
  destruct Ht as (_ & _ & ->).
  assert (Hlt : String.length tl
                < String.length ("{env:" +:+ name +:+ "}" +:+ tl)).
  { rewrite !append_length. simpl. lia. }
  apply Nat.ltb_lt in Hlt as Hb. rewrite Hb. f_equal.
  apply replace_from_fuel; lia.
Qed.

Lemma replace_render (env : Env) (ps : list piece) :
  leftmost ps ->
  replace env_re (env_value env) (render ps) = expand env ps.
Proof.
  induction ps as [|[c|name] ps IH]; simpl; intros H.
  - reflexivity.
  - destruct H as [Hno Hl]. rewrite replace_chr by exact Hno.
    now rewrite IH.
  - destruct H as [[Hne Hmem] Hl].
    rewrite (replace_token _ _ name (render ps)) by (repeat split; assumption).
    now rewrite IH.
Qed.

(** Every string has a left-to-right decomposition. *)
Lemma decompose (s : string) : exists ps, render ps = s /\ leftmost ps.
Proof.
  remember (String.length s) as n eqn:Hn.
  revert s Hn; induction n as [n IH] using lt_wf_ind; intros s Hn.
  destruct (exec env_re s) as [m|] eqn:E.
  - apply exec_Some in E as (name & Ht & _).
    destruct Ht as (Hne & Hmem & Hs).
    destruct (IH (String.length (rest m))) with (s := rest m)
      as (ps & Hr & Hl); [|reflexivity|].
    { subst n s. rewrite !append_length. simpl. lia. }
    exists (Token name :: ps). simpl. rewrite Hr. auto.
  - destruct s as [|c t]; [exists []; now split|].
    destruct (IH (String.length t)) with (s := t) as (ps & Hr & Hl);
      [subst n; simpl; lia | reflexivity |].
    exists (Chr c :: ps). simpl. rewrite Hr. split; [reflexivity|].
    split; [|exact Hl]. now apply exec_None.
Qed.

(** [interpolate] on a string: the string splits, from the left, into
    tokens [{env:NAME}] (NAME one or more characters other than [}]) and
    characters outside tokens; the result is the same sequence with every
    token replaced by what the read [process.env[NAME]] gives, or by the
    empty string when it gives [undefined], and every other character kept
    as it is. *)
Lemma interpolate_string_tokens (env : Env) (s : string) :
  exists ps,
    render ps = s /\ leftmost ps /\
    interpolate env (VStr s) = VStr (expand env ps).
Proof.
  destruct (decompose s) as (ps & Hr & Hl).
  exists ps. repeat split; [exact Hr | exact Hl |].
  simpl. now rewrite <- Hr, replace_render.
Qed.

Lemma inherited_text_name (native_text : string -> string)
    (name text : string) :
  inherited_text native_text name = Some text ->
  name <> "" /\ str_mem "}" name = false.
Proof.
  unfold inherited_text, inherits. intros H.
  destruct (existsb (String.eqb name) Object_prototype_names) eqn:E;
    [clear H | discriminate].
  apply existsb_exists in E as (n & Hin & Hn).
  apply String.eqb_eq in Hn. subst n.
  simpl in Hin.
  repeat (destruct Hin as [<-|Hin]; [split; [discriminate | reflexivity]|]).
  contradiction.
Qed.

(** C5. A token whose NAME is not a variable that is set, but the name of
    a member of [Object.prototype], is not replaced by the empty string:
    the read [process.env[NAME]] finds the inherited member, and the token
    is replaced by that member as a string, ["[object Object]"] for
    [__proto__] and the text of a native function for the others. *)
Theorem interpolate_unset_inherited_name
    (variables : string -> option string) (native_text : string -> string)
    (name text : string) :
  variables name = None ->
  inherited_text native_text name = Some text ->
  interpolate (env_of variables native_text)
              (VStr ("{env:" +:+ name +:+ "}"))
  = VStr text.
Proof.
  intros Hunset Htext.
  destruct (inherited_text_name _ _ _ Htext) as [Hne Hmem].
  assert (Ht : token_at ("{env:" +:+ name +:+ "}") name "").
  { unfold token_at. now rewrite append_nil_r. }
  simpl. f_equal.
  rewrite (replace_token _ _ name "" Ht), replace_empty, append_nil_r.
  unfold env_value, env_of. simpl. now rewrite Hunset, Htext.
Qed.

Lemma interpolate_unset_inherited_name_witness :
  sample_vars !! "__proto__" = None
  /\ interpolate sample_env (VStr "{env:__proto__}")
     = VStr "[object Object]".
Proof.
  split; [reflexivity|].
  apply (interpolate_unset_inherited_name
           (fun name => sample_vars !! name) Sample.native_text
           "__proto__" "[object Object]"); reflexivity.
Defined.

(** ** [interpolate] on values *)


Lemma own_lookup_None {A} (k : string) (props : list (string * A)) :
  k ∉ map fst props -> own_lookup k props = None.
Proof.
  induction props as [|[k' v'] ps IH]; simpl; intros H; [reflexivity|].
  apply not_elem_of_cons in H as [Hne Hin].
  destruct (String.eqb_spec k k'); [contradiction | auto].
Qed.

Lemma own_store_fresh {A} (k : string) (v : A)
    (props : list (string * A)) :
  k ∉ map fst props -> own_store k v props = props ++ [(k, v)].
Proof.
  induction props as [|[k' v'] ps IH]; simpl; intros H; [reflexivity|].
  apply not_elem_of_cons in H as [Hne Hin].
  destruct (String.eqb_spec k k'); [contradiction|].
  now rewrite IH.
Qed.

(** Copying properties one by one into an object that has none of them, when
    none is named ["__proto__"], appends them in order. *)
Lemma copy_props (f : value -> value) (props acc : list (string * value)) :
  NoDup (map fst acc ++ map fst props) ->
  Forall (fun kv => kv.1 <> "__proto__") props ->
  fold_left (fun result kv => set_prop result kv.1 (f kv.2)) props (None, acc)
  = (None, acc ++ map (fun kv => (kv.1, f kv.2)) props).
Proof.
  revert acc; induction props as [|[k v] ps IH]; intros acc Hnd Hk; simpl.
  - now rewrite app_nil_r.
  - inversion Hk as [|? ? Hk1 Hk2]; subst. simpl in Hk1.
    destruct (String.eqb_spec k "__proto__") as [|_]; [contradiction|].
    simpl. rewrite own_store_fresh.
    + assert (Hnd' : NoDup (map fst (acc ++ [(k, f v)]) ++ map fst ps)).
      { rewrite map_app. simpl. now rewrite <- app_assoc. }
      rewrite (IH _ Hnd' Hk2). now rewrite <- app_assoc.
    + apply NoDup_app in Hnd as (_ & Hdis & _).
      intros Hin. apply (Hdis k Hin). simpl. left.
Qed.

(** Token-free strings are left as they are. *)
Lemma replace_no_token (f : mres -> string) (s : string) :
  has_token s = false -> replace env_re f s = s.
Proof.
  induction s as [|c t IH]; intros H; [reflexivity|].
  unfold has_token in H; fold has_token in H.
  destruct (exec env_re (String c t)) eqn:E; [discriminate|].
  rewrite replace_chr by now apply exec_None.
  now rewrite IH.
Qed.

(** On JSON data without tokens and without a key named ["__proto__"],
    [interpolate] is the identity. *)
Theorem interpolate_identity (env : Env) (v : value) :
  is_json v = true -> no_tokens v = true -> no_proto_key v = true ->
  interpolate env v = v.
Proof.
  induction v as [| | |s|items IH|p props IHp IH] using value_nested_ind;
    intros Hj Ht Hp; try reflexivity.
  - simpl in *. apply negb_true_iff in Ht. now rewrite replace_no_token.
  - simpl in *. f_equal.
    induction IH as [|x l Hx Hl IHl]; [reflexivity|]. simpl in *.
    apply andb_true_iff in Hj as [? ?], Ht as [? ?], Hp as [? ?].
    f_equal; auto.
  - simpl in Hj, Ht, Hp.
    destruct p as [q|]; [discriminate|]. simpl in Hj, Ht, Hp.
    apply andb_true_iff in Hj as [Hnd Hj].
    apply bool_decide_eq_true in Hnd.
    simpl. rewrite copy_props.
    + simpl. f_equal.
      induction IH as [|[k x] l Hx Hl IHl]; [reflexivity|]. simpl in *.
      apply andb_true_iff in Hj as [? ?], Ht as [? ?], Hp as [Hp1 ?].
      apply andb_true_iff in Hp1 as [? ?].
      apply NoDup_cons in Hnd as [? ?].
      f_equal; [f_equal|]; auto.
    + exact Hnd.
    + clear -Hp. induction props as [|[k x] l IHl]; constructor; simpl in *;
        apply andb_true_iff in Hp as [Hp1 Hp2].
      * apply andb_true_iff in Hp1 as [Hk _]. apply negb_true_iff in Hk.
        now destruct (String.eqb_spec k "__proto__").
      * auto.
Qed.

(** C6, the input on which [interpolate] is not the identity.  The object
    [JSON.parse] builds from [{"__proto__": 1}] is JSON data without tokens,
    yet [interpolate] returns an object without that key: the assignment
    [result[k] = ...] with [k = "__proto__"] runs the inherited setter, which
    ignores a number and creates no property. *)
Theorem interpolate_drops_proto_key (env : Env) :
  let v := VObj None [("__proto__", VNum 1)] in
  is_json v = true /\ no_tokens v = true /\
  interpolate env v = VObj None [] /\ interpolate env v <> v.
Proof.
  cbv zeta. split; [vm_compute; reflexivity|].
  split; [reflexivity|]. split; [reflexivity | discriminate].
Qed.

(** ** Config loading *)

Ltac unfold_M :=
  unfold lift, try_catch, mbind, M_bind, bind, mret, M_ret, ret, throw, emit
    in *.

(** [readConfigFile] never throws, and what it does and returns does not
    depend on what happened before. *)
Lemma readConfigFile_frame (pf : Platform) (path : string)
    (tr : list io_event) :
  exists config evs,
    readConfigFile pf path [] = (inr config, evs) /\
    readConfigFile pf path tr = (inr config, tr ++ evs).
Proof.
  unfold readConfigFile, read_file, parse_json, read_targets. unfold_M.
  simpl.
  destruct (readFileSync pf path) as [err|raw]; simpl.
  { destruct (isNotFound err); simpl; eexists _, _; split; try reflexivity;
      rewrite <- ?app_assoc; reflexivity. }
  destruct (JSON_parse pf raw) as [text|json]; simpl.
  { eexists _, _; split; [reflexivity|]. rewrite <- ?app_assoc; reflexivity. }
  destruct (interpolate (process_env pf) json) as [| | | |items|p props] eqn:E;
    cbn -[get_prop];
    try (destruct (get_prop _ "targets") as [[| | | |its|]|]);
    eexists _, _; (split; [reflexivity|]);
    cbn; rewrite <- ?app_assoc; reflexivity.
Qed.

Lemma readConfigFile_targets (pf : Platform) (path : string)
    (tr : list io_event) :
  exists config evs,
    readConfigFile pf path tr = (inr config, evs) /\
    targets_or_empty config = file_targets pf path.
Proof.
  destruct (readConfigFile_frame pf path tr) as (config & evs & H0 & Htr).
  exists config, (tr ++ evs). split; [exact Htr|].
  unfold file_targets. now rewrite H0.
Qed.

(** C7. When the read fails because the file does not exist,
    [readConfigFile] returns [null]; all it did was the read: no warning was
    printed and nothing was parsed. *)
Theorem readConfigFile_missing (pf : Platform) (filePath : string)
    (err : js_error) :
  readFileSync pf filePath = inl err ->
  err_is_Error err = true ->
  err_code err = Some "ENOENT" ->
  readConfigFile pf filePath [] = (inr None, [IoRead filePath]).
Proof.
  intros Hread His Hcode.
  unfold readConfigFile, read_file, isNotFound. unfold_M. simpl.
  rewrite Hread. simpl. rewrite His, Hcode. reflexivity.
Qed.

Lemma readConfigFile_missing_witness :
  readConfigFile (Sample.platform ∅ []) "/missing.json" []
  = (inr None, [IoRead "/missing.json"]).
Proof.
  apply (readConfigFile_missing (Sample.platform ∅ []) "/missing.json"
           (Sample.enoent "/missing.json")); reflexivity.
Defined.

(** Malformed JSON: the read succeeds, [JSON.parse] throws; the handler
    prints one warning and returns [null], the value it returns for a file
    that does not exist, not [{ targets: [] }]. *)
Lemma readConfigFile_malformed (pf : Platform) (filePath raw text : string) :
  readFileSync pf filePath = inr raw ->
  JSON_parse pf raw = inl text ->
  readConfigFile pf filePath []
  = (inr None,
     [IoRead filePath; IoParse raw;
      IoWarn ("[opencode-event-push] Could not read " +:+ filePath
              +:+ ": " +:+ text)]).
Proof.
  intros Hread Hparse.
  unfold readConfigFile, read_file, parse_json. unfold_M. simpl.
  rewrite Hread. simpl. rewrite Hparse. reflexivity.
Qed.

(** C1, at the content ["not valid json {{{"]: [readConfigFile] prints one
    warning and returns [null] where its documentation promises
    [{ targets: [] }]. *)
Theorem readConfigFile_malformed_returns_null :
  let pf := Sample.platform ∅ [("/malformed.json", "not valid json {{{")] in
  readConfigFile pf "/malformed.json" []
  = (inr None,
     [IoRead "/malformed.json"; IoParse "not valid json {{{";
      IoWarn ("[opencode-event-push] Could not read /malformed.json: "
              +:+ "SyntaxError: JSON Parse error: Unexpected token")])
  /\ (readConfigFile pf "/malformed.json" []).1
     <> inr (Some {| targets := [] |}).
Proof. split; [vm_compute; reflexivity | discriminate]. Qed.

Lemma file_targets_unreadable (pf : Platform) (path : string)
    (err : js_error) :
  readFileSync pf path = inl err -> file_targets pf path = [].
Proof.
  intros Hread. unfold file_targets, readConfigFile, read_file. unfold_M.
  simpl. rewrite Hread. simpl. now destruct (isNotFound err).
Qed.

(** The merged list [loadConfig] returns. *)
Lemma loadConfig_targets (pf : Platform) (directory : option string) :
  exists evs,
    loadConfig pf directory []
    = (inr {| targets := file_targets pf (global_path pf)
                         ++ project_targets pf directory |}, evs).
Proof.
  unfold loadConfig, project_targets. fold (global_path pf).
  unfold mbind, M_bind, bind.
  destruct (readConfigFile_targets pf (global_path pf) [])
    as (g & evs & -> & <-).
  destruct directory as [d|]; [destruct (String.eqb d "")|].
  - eexists. reflexivity.
  - fold (project_path pf d).
    destruct (readConfigFile_targets pf (project_path pf d) evs)
      as (p & evs' & -> & <-).
    eexists. reflexivity.
  - eexists. reflexivity.
Qed.

(** C4, as the code has it.  [loadConfig] always returns a config, never
    throws; its targets are the global file's followed by the project
    file's, where the project contributes nothing when the directory
    argument is omitted or is the empty string, and a file that cannot be
    read contributes nothing.  With both files missing the list is empty. *)
Theorem loadConfig_concatenates (pf : Platform) (directory : option string) :
  (exists evs,
     loadConfig pf directory []
     = (inr {| targets := file_targets pf (global_path pf)
                          ++ project_targets pf directory |}, evs)) /\
  (forall path err,
     readFileSync pf path = inl err -> file_targets pf path = []) /\
  (forall err,
     readFileSync pf (global_path pf) = inl err ->
     (forall d, directory = Some d ->
                exists err', readFileSync pf (project_path pf d) = inl err') ->
     exists evs, loadConfig pf directory [] = (inr {| targets := [] |}, evs)).
Proof.
  split; [apply loadConfig_targets|].
  split; [apply file_targets_unreadable|].
  intros e1 H1 Habsent.
  destruct (loadConfig_targets pf directory) as (evs & ->).
  exists evs.
  rewrite (file_targets_unreadable _ _ _ H1).
  assert (Hp : project_targets pf directory = []).
  { unfold project_targets. destruct directory as [d|]; [|reflexivity].
    destruct (String.eqb d ""); [reflexivity|].
    destruct (Habsent d eq_refl) as (e2 & H2).
    apply (file_targets_unreadable _ _ _ H2). }
  now rewrite Hp.
Qed.

Lemma loadConfig_concatenates_witness :
  let pf := Sample.platform ∅
    [("/home/testuser/.config/opencode/opencode-event-push.json",
      sample_global_config);
     ("/proj/opencode-event-push.json", sample_project_config)] in
  (loadConfig pf (Some "/proj") []).1
  = inr {| targets := [VObj None [("url", VStr "https://global.example.com")];
                       VObj None [("url", VStr "https://project.example.com")]]
        |}.
Proof.
  intros pf.
  destruct (proj1 (loadConfig_concatenates pf (Some "/proj"))) as (evs & ->).
  vm_compute. reflexivity.
Defined.

(** C4 as stated fails when the directory argument is the empty string: a
    directory is supplied and the file that [path.join] names for it,
    [opencode-event-push.json], exists with one target, yet [loadConfig]
    does not read it. *)
Lemma loadConfig_empty_directory_counterexample :
  let pf := Sample.platform ∅
    [("opencode-event-push.json", sample_project_config)] in
  spec_loadConfig_targets pf (Some "")
  = [VObj None [("url", VStr "https://project.example.com")]]
  /\ (loadConfig pf (Some "") []).1 = inr {| targets := [] |}
  /\ (loadConfig pf (Some "") []).1
     <> inr {| targets := spec_loadConfig_targets pf (Some "") |}.
Proof.
  cbv zeta. split; [vm_compute; reflexivity|].
  split; [vm_compute; reflexivity|].
  vm_compute. discriminate.
Qed.

(** ** Delivery *)

Section DeliveryFacts.

Context {Payload : Type}.
Variable JSON_stringify : Payload -> js_error + string.
Variable fetch : nat -> Request -> js_error + Response.
Variable log : string -> LogExtra -> option js_error.
Variable target : TargetConfig.
Variable payload : Payload.

Local Abbreviation once := (attempt_once JSON_stringify fetch log (url target)
                    (default [] (headers target)) (effective_attempts target)
                    (effective_delay target) payload).
Local Abbreviation loop left := (attempts_from JSON_stringify fetch log left (url target)
                    (default [] (headers target)) (effective_attempts target)
                    (effective_delay target) payload).

Lemma count_fetch_app (tr1 tr2 : list net_event) :
  count_fetch (tr1 ++ tr2) = count_fetch tr1 + count_fetch tr2.
Proof. unfold count_fetch. now rewrite List.filter_app, length_app. Qed.

(** One attempt whose request goes out, by its outcome. *)
Lemma attempt_once_sent (body : string) (attempt : Z) (tr : list net_event) :
  JSON_stringify payload = inr body ->
  let r := fetch (count_fetch tr) (post_request target body) in
  let tr' := tr ++ [EvFetch (post_request target body)] in
  once attempt tr
  = if failed r then
      if Z.eqb attempt (effective_attempts target - 1)
      then (match log_result log target (failure_text r) with
            | inr _ => inr Return
            | inl e' => inl e'
            end,
            tr' ++ [EvLog (failure_message target (failure_text r))
                          (failure_extra target (failure_text r))])
      else (inr Continue,
            tr' ++ [EvSleep (effective_delay target * 2 ^ attempt)])
    else (inr Return, tr').
Proof.
  intros Hbody. cbv zeta. unfold post_request.
  unfold attempt_once, await_fetch, await_log, await_timeout, log_result.
  unfold_M. rewrite Hbody. cbv beta iota zeta.
  destruct (fetch _ _) as [e|res]; simpl.
  - destruct (Z.eqb _ _); [destruct (log _ _)|]; reflexivity.
  - destruct (ok res); simpl; [reflexivity|].
    destruct (Z.eqb _ _); [destruct (log _ _)|]; reflexivity.
Qed.

(** One attempt whose payload cannot be serialized: no request goes out. *)
Lemma attempt_once_unsent (e : js_error) (attempt : Z)
    (tr : list net_event) :
  JSON_stringify payload = inl e ->
  once attempt tr
  = if Z.eqb attempt (effective_attempts target - 1)
    then (match log_result log target (err_text e) with
          | inr _ => inr Return
          | inl e' => inl e'
          end,
          tr ++ [EvLog (failure_message target (err_text e))
                       (failure_extra target (err_text e))])
    else (inr Continue,
          tr ++ [EvSleep (effective_delay target * 2 ^ attempt)]).
Proof.
  intros Hbody.
  unfold attempt_once, await_log, await_timeout, log_result.
  unfold_M. rewrite Hbody.
  destruct (Z.eqb _ _); [destruct (log _ _)|]; reflexivity.
Qed.

Lemma loop_S (left : nat) (attempt : Z) (tr : list net_event) :
  loop (S left) attempt tr
  = if Z.ltb attempt (effective_attempts target) then
      match once attempt tr with
      | (inr Return, tr') => (inr tt, tr')
      | (inr Continue, tr') => loop left (attempt + 1)%Z tr'
      | (inl e, tr') => (inl e, tr')
      end
    else (inr tt, tr).
Proof.
  simpl. destruct (Z.ltb attempt (effective_attempts target)); [|reflexivity].
  unfold mbind, M_bind, bind.
  destruct (once attempt tr) as [[e|[|]] tr']; reflexivity.
Qed.

Ltac solve_resolved :=
  unfold logs_resolved;
  repeat (constructor; [first [exact I | assumption] | ]);
  try constructor.

(** However an attempt goes, it ends with [return], falls through to the
    next iteration, or lets the rejection of the [log] call escape. *)
Lemma attempt_once_cases (attempt : Z) (tr : list net_event) :
  exists tl,
    (once attempt tr = (inr Return, tr ++ tl) /\ logs_resolved log tl) \/
    (once attempt tr = (inr Continue, tr ++ tl) /\ logs_resolved log tl) \/
    exists text e tl',
      once attempt tr = (inl e, tr ++ tl) /\
      tl = tl' ++ [EvLog (failure_message target text)
                         (failure_extra target text)] /\
      logs_resolved log tl' /\
      log (failure_message target text) (failure_extra target text) = Some e.
Proof.
  destruct (JSON_stringify payload) as [e|body] eqn:Hbody.
  - rewrite (attempt_once_unsent e attempt tr Hbody).
    destruct (Z.eqb _ _);
      [|eexists; right; left; split; [reflexivity | solve_resolved]].
    unfold log_result.
    destruct (log _ _) as [e'|] eqn:Hlog;
      [|eexists; left; split; [reflexivity | solve_resolved]].
    eexists. right; right. exists (err_text e), e', [].
    split; [reflexivity|]. split; [reflexivity|].
    split; [solve_resolved | exact Hlog].
  - rewrite (attempt_once_sent body attempt tr Hbody). cbv zeta.
    destruct (failed _);
      [|eexists; left; split; [reflexivity | solve_resolved]].
    destruct (Z.eqb _ _);
      [|eexists; right; left;
        split; [rewrite <- app_assoc; reflexivity | solve_resolved]].
    unfold log_result.
    destruct (log _ _) as [e'|] eqn:Hlog;
      [|eexists; left;
        split; [rewrite <- app_assoc; reflexivity | solve_resolved]].
    eexists. right; right. eexists _, e', [_].
    split; [rewrite <- app_assoc; reflexivity|].
    split; [reflexivity|]. split; [solve_resolved | exact Hlog].
Qed.

Lemma loop_cases (left : nat) (attempt : Z) (tr : list net_event) :
  exists tl,
    (loop left attempt tr = (inr tt, tr ++ tl) /\ logs_resolved log tl) \/
    exists text e tl',
      loop left attempt tr = (inl e, tr ++ tl) /\
      tl = tl' ++ [EvLog (failure_message target text)
                         (failure_extra target text)] /\
      logs_resolved log tl' /\
      log (failure_message target text) (failure_extra target text) = Some e.
Proof.
  revert attempt tr; induction left as [|left IH]; intros attempt tr.
  - exists []. left. simpl. rewrite app_nil_r. split; [reflexivity|].
    solve_resolved.
  - rewrite loop_S. destruct (Z.ltb _ _);
      [|exists []; left; rewrite app_nil_r; split;
        [reflexivity | solve_resolved]].
    destruct (attempt_once_cases attempt tr)
      as (tl & [[-> Hres] | [[-> Hres]
                            | (text & e & tl' & -> & Htl & Hres & Hlog)]]).
    + exists tl. now left.
    + destruct (IH (attempt + 1)%Z (tr ++ tl))
        as (tl2 & [[-> Hres2]
                  | (text & e & tl' & -> & Htl & Hres2 & Hlog)]).
      * exists (tl ++ tl2). left. rewrite app_assoc.
        split; [reflexivity|]. now apply Forall_app.
      * exists (tl ++ tl2). right. exists text, e, (tl ++ tl').
        split; [now rewrite app_assoc|].
        split; [now rewrite Htl, app_assoc|].
        split; [now apply Forall_app | exact Hlog].
    + exists tl. right. now exists text, e, tl'.
Qed.

Lemma count_fetch_sent (tr : list net_event) (req : Request) (ms : Z) :
  count_fetch ((tr ++ [EvFetch req]) ++ [EvSleep ms]) = S (count_fetch tr).
Proof. rewrite !count_fetch_app. unfold count_fetch. simpl. lia. Qed.

(** The run in which every attempt fails. *)
Lemma loop_all_fail (body : string) :
  JSON_stringify payload = inr body ->
  let n := effective_attempts target in
  let req := post_request target body in
  let text := failure_text (fetch (Z.to_nat n - 1) req) in
  (forall j, j < Z.to_nat n -> failed (fetch j req) = true) ->
  forall left attempt tr,
    0 < left ->
    Z.of_nat left = (n - attempt)%Z ->
    (0 <= attempt)%Z ->
    count_fetch tr = Z.to_nat attempt ->
    loop left attempt tr
    = (log_result log target text,
       tr ++ backoff_trace req (effective_delay target) attempt left
               (EvLog (failure_message target text)
                      (failure_extra target text))).
Proof.
  intros Hbody n req text Hfail.
  induction left as [|left IH]; intros attempt tr Hpos Hleft Hatt Hcount;
    [lia|].
  rewrite loop_S, (attempt_once_sent body attempt tr Hbody). cbv zeta.
  fold n req.
  replace (Z.ltb attempt n) with true by (symmetry; apply Z.ltb_lt; lia).
  rewrite Hcount, Hfail by lia.
  destruct left as [|left'].
  - assert (attempt = (n - 1)%Z) as -> by lia.
    rewrite Z.eqb_refl.
    replace (Z.to_nat (n - 1)) with (Z.to_nat n - 1) by lia.
    fold text. simpl backoff_trace.
    rewrite <- app_assoc. simpl.
    destruct (log_result log target text) as [e|[]]; reflexivity.
  - replace (Z.eqb attempt (n - 1)) with false
      by (symmetry; apply Z.eqb_neq; lia).
    rewrite IH; try lia.
    + f_equal. rewrite <- !app_assoc. reflexivity.
    + rewrite count_fetch_sent. lia.
Qed.

End DeliveryFacts.

Lemma backoff_trace_fetches (req : Request) (d attempt : Z) (left : nat)
    (final : net_event) :
  is_fetch final = false ->
  List.filter is_fetch (backoff_trace req d attempt left final)
  = replicate left (EvFetch req).
Proof.
  intros Hfinal. revert attempt.
  induction left as [|[|left] IH]; intros attempt; [reflexivity| |].
  - simpl. now rewrite Hfinal.
  - change (backoff_trace req d attempt (S (S left)) final)
      with (EvFetch req :: EvSleep (d * 2 ^ attempt)
              :: backoff_trace req d (attempt + 1) (S left) final).
    set (rest := backoff_trace req d (attempt + 1) (S left) final).
    simpl. subst rest. rewrite IH. reflexivity.
Qed.

Lemma backoff_trace_logs (req : Request) (d attempt : Z) (left : nat)
    (final : net_event) :
  is_log final = true -> 0 < left ->
  List.filter is_log (backoff_trace req d attempt left final) = [final]
  /\ last (backoff_trace req d attempt left final) = Some final.
Proof.
  intros Hfinal. revert attempt.
  induction left as [|[|left] IH]; intros attempt Hpos; [lia| |].
  - simpl. now rewrite Hfinal.
  - change (backoff_trace req d attempt (S (S left)) final)
      with (EvFetch req :: EvSleep (d * 2 ^ attempt)
              :: backoff_trace req d (attempt + 1) (S left) final).
    destruct (IH (attempt + 1)%Z) as [IH1 IH2]; [lia|].
    set (rest := backoff_trace req d (attempt + 1) (S left) final) in *.
    split; [simpl; exact IH1|].
    rewrite !last_cons, IH2. reflexivity.
Qed.

Lemma contains_intro (pre sub post : string) :
  contains sub (pre +:+ sub +:+ post).
Proof. now exists pre, post. Qed.

Section DeliveryClaims.

Context {Payload : Type}.
Variable JSON_stringify : Payload -> js_error + string.
Variable fetch : nat -> Request -> js_error + Response.
Variable log : string -> LogExtra -> option js_error.
Variable target : TargetConfig.
Variable payload : Payload.


(** C3, as the code has it.  With [n >= 1] effective attempts that all
    fail, [pushToTarget] sends exactly [n] requests, each a POST to the
    target's URL, and calls [log] exactly once, after them: the message
    names the URL, the number of attempts and the last error, the extra
    fields are the URL, the error and the number of attempts.  It returns
    normally when that call resolves, and rejects with the error of that
    call when it rejects. *)
Theorem pushToTarget_exhausted (body : string) :
  (1 <= effective_attempts target)%Z ->
  JSON_stringify payload = inr body ->
  (forall j, j < Z.to_nat (effective_attempts target) ->
             failed (fetch j (post_request target body)) = true) ->
  let n := effective_attempts target in
  let req := post_request target body in
  let text := failure_text (fetch (Z.to_nat n - 1) req) in
  let message := failure_message target text in
  let extra := failure_extra target text in
  let out := pushToTarget JSON_stringify fetch log target payload [] in
  List.filter is_fetch out.2 = replicate (Z.to_nat n) (EvFetch req) /\
  (req_method req = "POST" /\ req_url req = url target) /\
  List.filter is_log out.2 = [EvLog message extra] /\
  last out.2 = Some (EvLog message extra) /\
  (contains (url target) message /\
   contains (show_int n +:+ " attempt(s)") message /\
   contains text message) /\
  extra = {| extra_url := url target; extra_error := text;
             extra_attempts := n |} /\
  (log message extra = None -> out.1 = inr tt) /\
  (forall e, log message extra = Some e -> out.1 = inl e).
Proof.
  intros Hn Hbody Hfail n req text message extra out.
  assert (Hout : out
    = (log_result log target text,
       backoff_trace req (effective_delay target) 0 (Z.to_nat n)
         (EvLog message extra))).
  { subst out. unfold pushToTarget.
    apply (loop_all_fail JSON_stringify fetch log target payload body Hbody
             Hfail (Z.to_nat (effective_attempts target)) 0%Z []);
      [subst n; lia | lia | lia | reflexivity]. }
  rewrite Hout. simpl fst. simpl snd.
  destruct (backoff_trace_logs req (effective_delay target) 0 (Z.to_nat n)
              (EvLog message extra) eq_refl) as [Hlogs Hlast];
    [subst n; lia|].
  split; [now apply backoff_trace_fetches|].
  split; [split; reflexivity|].
  split; [exact Hlogs|]. split; [exact Hlast|].
  split; [|split; [reflexivity|]].
  - subst message. unfold failure_message. fold n. repeat split.
    + apply (contains_intro "Failed to push event to ").
    + exists ("Failed to push event to " +:+ url target +:+ " after "),
             (": " +:+ text).
      now rewrite !append_assoc.
    + exists ("Failed to push event to " +:+ url target +:+ " after "
              +:+ show_int n +:+ " attempt(s): "), "".
      now rewrite !append_assoc, append_nil_r.
  - unfold log_result. fold message extra.
    split; [now intros -> | now intros e ->].
Qed.

End DeliveryClaims.


(** C3 as stated fails in its last part: three attempts fail, the one
    [log] call is made and rejects; [pushToTarget] does not return normally
    but rejects with the logger's error. *)
Lemma pushToTarget_exhausted_counterexample :
  let out := pushToTarget (Payload := string) inr always_fails log_rejects
               sample_target "{}" [] in
  length (List.filter is_fetch out.2) = 3 /\
  length (List.filter is_log out.2) = 1 /\
  out.1 = inl (JsError true None "Error: logger unavailable") /\
  out.1 <> inr tt.
Proof. repeat split; try reflexivity. discriminate. Qed.

Lemma pushToTarget_exhausted_witness :
  let out := pushToTarget (Payload := string) inr always_fails log_resolves
               sample_target "{}" [] in
  length (List.filter is_fetch out.2) = 3 /\
  List.filter is_log out.2
  = [EvLog ("Failed to push event to https://hook.example.com/push "
            +:+ "after 3 attempt(s): Error: always fails")
           {| extra_url := "https://hook.example.com/push";
              extra_error := "Error: always fails";
              extra_attempts := 3 |}] /\
  out.1 = inr tt.
Proof.
  destruct (pushToTarget_exhausted (Payload := string) inr always_fails
              log_resolves sample_target "{}" "{}")
    as (Hf & _ & Hl & _ & _ & _ & Hr & _).
  - vm_compute. discriminate.
  - reflexivity.
  - intros j Hj. vm_compute in Hj.
    destruct j as [|[|[|j]]]; try reflexivity. lia.
  - cbv zeta. rewrite Hf, Hl. split; [reflexivity|].
    split; [reflexivity|]. apply Hr. reflexivity.
Defined.

Lemma delays_app (tr1 tr2 : list net_event) :
  delays (tr1 ++ tr2) = delays tr1 ++ delays tr2.
Proof. unfold delays. apply omap_app. Qed.


Section BackoffClaims.

Context {Payload : Type}.
Variable JSON_stringify : Payload -> js_error + string.
Variable fetch : nat -> Request -> js_error + Response.
Variable log : string -> LogExtra -> option js_error.
Variable target : TargetConfig.
Variable payload : Payload.

Local Abbreviation loop left := (attempts_from JSON_stringify fetch log left
                    (url target) (default [] (headers target))
                    (effective_attempts target) (effective_delay target)
                    payload).







End BackoffClaims.


(** ** Dispatch *)


Section PluginClaims.

Context {Event : Type}.
Variable type : Event -> string.
Variable JSON_stringify : Event -> js_error + string.
Variable app_log : LogBody -> option js_error.
Variable network : nat -> nat -> Request -> js_error + Response.



(** C10. When the merged target list is empty, activation returns the
    empty hooks object: there is no [event] handler, so no event the host
    has is ever filtered or delivered. *)
Theorem EventPushPlugin_no_targets (pf : Platform)
    (directory : option string) :
  (loadConfig pf directory []).1 = inr {| targets := [] |} ->
  (EventPushPlugin pf directory []).1 = inr {| event := None |} /\
  forall ev,
    call_event type JSON_stringify app_log network {| event := None |} ev
    = NoHandler.
Proof.
  intros Hload. split; [|reflexivity].
  unfold EventPushPlugin, mbind, M_bind, bind.
  destruct (loadConfig pf directory []) as [[e|config] evs]; simpl in *.
  - discriminate.
  - inversion Hload; subst. reflexivity.
Qed.

End PluginClaims.

Lemma EventPushPlugin_no_targets_witness :
  (EventPushPlugin (Sample.platform ∅ []) (Some "/proj") []).1
  = inr {| event := None |}.
Proof.
  apply (EventPushPlugin_no_targets (Event := string) id inr
           (fun _ => None) (fun _ => always_fails)
           (Sample.platform ∅ []) (Some "/proj")).
  vm_compute. reflexivity.
Defined.


(** The decomposition is unique: [leftmost] and the text determine it. *)
Lemma leftmost_unique (ps1 ps2 : list piece) :
  leftmost ps1 -> leftmost ps2 -> render ps1 = render ps2 -> ps1 = ps2.
Proof.
  revert ps2; induction ps1 as [|[c1|n1] ps1 IH];
    intros [|[c2|n2] ps2] H1 H2 Hr; simpl in *; try discriminate.
  - reflexivity.
  - destruct H1 as [_ H1], H2 as [_ H2].
    inversion Hr; subst. f_equal. now apply IH.
  - destruct H1 as [Hno _], H2 as [[Hne Hmem] _].
    exfalso. apply Hno. rewrite Hr. now exists n2, (render ps2).
  - destruct H1 as [[Hne Hmem] _], H2 as [Hno _].
    exfalso. apply Hno. rewrite <- Hr. now exists n1, (render ps1).
  - destruct H1 as [[Hne1 Hmem1] H1], H2 as [[Hne2 Hmem2] H2].
    apply (inj (String.app "{env:")) in Hr.
    change ("}" +:+ render ps1) with (String "}" (render ps1)) in Hr.
    change ("}" +:+ render ps2) with (String "}" (render ps2)) in Hr.
    pose proof (scan_name_app "}" n1 (render ps1) Hmem1) as E1.
    rewrite Hr, (scan_name_app "}" n2 (render ps2) Hmem2) in E1.
    inversion E1; subst. f_equal. now apply IH.
Qed.

(** When no call of [log] can reject, [pushToTarget] returns normally. *)
Lemma pushToTarget_returns {Payload : Type}
    (JSON_stringify : Payload -> js_error + string)
    (fetch : nat -> Request -> js_error + Response)
    (log : string -> LogExtra -> option js_error)
    (target : TargetConfig) (payload : Payload) :
  (forall message extra, log message extra = None) ->
  (pushToTarget JSON_stringify fetch log target payload []).1 = inr tt.
Proof.
  intros Hlog. unfold pushToTarget.
  destruct (loop_cases JSON_stringify fetch log target payload
              (Z.to_nat (effective_attempts target)) 0 [])
    as (tl & [[-> _] | (text & e & tl' & _ & _ & _ & H)]);
    [reflexivity | now rewrite Hlog in H].
Qed.

(** ** Examples *)

Example interpolate_single_token :
  interpolate sample_env (VStr "{env:TEST_VAR}") = VStr "hello".
Proof. reflexivity. Qed.

Example interpolate_two_tokens :
  interpolate sample_env (VStr "{env:TEST_VAR} {env:ANOTHER_VAR}")
  = VStr "hello world".
Proof. reflexivity. Qed.

Example interpolate_unset_variable :
  interpolate sample_env (VStr "{env:DEFINITELY_NOT_SET_12345}") = VStr "".
Proof. reflexivity. Qed.

Example interpolate_surrounding_text :
  interpolate sample_env (VStr "prefix-{env:TEST_VAR}-suffix")
  = VStr "prefix-hello-suffix".
Proof. reflexivity. Qed.

(** An empty name is no token, and a token ends at the first [}]: the name
    of the token below is [{env:TEST_VAR], which is not set. *)
Example interpolate_not_tokens :
  interpolate sample_env (VStr "{env:}") = VStr "{env:}" /\
  interpolate sample_env (VStr "a{env:{env:TEST_VAR}b") = VStr "ab".
Proof. split; reflexivity. Qed.

Example interpolate_nested :
  interpolate sample_env
    (VObj None
       [("targets",
         VArr [VObj None [("url", VStr "{env:TEST_VAR}");
                          ("events", VArr [VStr "{env:ANOTHER_VAR}"]);
                          ("retry", VObj None [("attempts", VNum 3)])]])])
  = VObj None
      [("targets",
        VArr [VObj None [("url", VStr "hello");
                         ("events", VArr [VStr "world"]);
                         ("retry", VObj None [("attempts", VNum 3)])]])].
Proof. reflexivity. Qed.

(** A [__proto__] entry whose value is an object becomes the prototype of
    the copy, so its properties are read through the copy. *)
Example interpolate_proto_object :
  let v := VObj None [("__proto__", VObj None [("targets", VArr [])])] in
  interpolate sample_env v
  = VObj (Some (VObj None [("targets", VArr [])])) [] /\
  get_prop v "targets" = None /\
  get_prop (interpolate sample_env v) "targets" = Some (VArr []).
Proof. repeat split; reflexivity. Qed.

Example readConfigFile_valid :
  readConfigFile (Sample.platform sample_vars sample_files) "/env.json" []
  = (inr (Some {| targets := [VObj None [("url", VStr "hello")]] |}),
     [IoRead "/env.json";
      IoParse ("{" +:+ Sample.quoted "targets" +:+ ": [{"
               +:+ Sample.quoted "url" +:+ ": "
               +:+ Sample.quoted "{env:TEST_VAR}" +:+ "}]}")]).
Proof. vm_compute. reflexivity. Qed.

Example readConfigFile_targets_not_array :
  let out := readConfigFile (Sample.platform sample_vars sample_files)
               "/bad-targets.json" [] in
  out.1 = inr (Some {| targets := [] |}) /\
  List.filter (fun ev => match ev with IoWarn _ => true | _ => false end)
              out.2
  = [IoWarn ("[opencode-event-push] /bad-targets.json"
             +:+ " is missing a 'targets' array — skipping")].
Proof. split; vm_compute; reflexivity. Qed.

Example readConfigFile_unreadable :
  readConfigFile
    {| process_env := env_of (fun _ => None) Sample.native_text;
       readFileSync := denied; JSON_parse := Sample.parse;
       null_read_text := ""; homedir := "/home/testuser";
       join := Sample.join_segments |} "/bad.json" []
  = (inr None,
     [IoRead "/bad.json";
      IoWarn ("[opencode-event-push] Could not read /bad.json: "
              +:+ "Error: EACCES: permission denied")]).
Proof. reflexivity. Qed.

(** [JSON.parse("null")] succeeds; reading [targets] from it throws, and
    the handler answers as for any other error. *)
Example readConfigFile_null_document :
  (readConfigFile (Sample.platform sample_vars sample_files)
                  "/null.json" []).1 = inr None.
Proof. vm_compute. reflexivity. Qed.

Example loadConfig_global_only_without_directory :
  (loadConfig (Sample.platform sample_vars sample_files) None []).1
  = inr {| targets :=
             [VObj None [("url", VStr "https://global.example.com")]] |}.
Proof. vm_compute. reflexivity. Qed.

Example loadConfig_neither_file :
  loadConfig (Sample.platform ∅ []) (Some "/proj") []
  = (inr {| targets := [] |},
     [IoRead "/home/testuser/.config/opencode/opencode-event-push.json";
      IoRead "/proj/opencode-event-push.json"]).
Proof. reflexivity. Qed.

Example pushToTarget_first_attempt_success :
  pushToTarget (Payload := string) inr always_ok log_resolves
               sample_target "{}" []
  = (inr tt, [EvFetch (post_request sample_target "{}")]).
Proof. reflexivity. Qed.

Example pushToTarget_second_attempt_success :
  pushToTarget (Payload := string) inr fails_then_ok log_resolves
               sample_target "{}" []
  = (inr tt,
     [EvFetch (post_request sample_target "{}"); EvSleep 500;
      EvFetch (post_request sample_target "{}")]).
Proof. reflexivity. Qed.

Example pushToTarget_three_attempts :
  pushToTarget (Payload := string) inr always_fails log_resolves
               sample_target "{}" []
  = (inr tt,
     [EvFetch (post_request sample_target "{}"); EvSleep 500;
      EvFetch (post_request sample_target "{}"); EvSleep 1000;
      EvFetch (post_request sample_target "{}");
      EvLog ("Failed to push event to https://hook.example.com/push "
             +:+ "after 3 attempt(s): Error: always fails")
            {| extra_url := "https://hook.example.com/push";
               extra_error := "Error: always fails";
               extra_attempts := 3 |}]).
Proof. reflexivity. Qed.

(** Every delivery fails and the logger rejects: the handler still
    completes normally. *)
Example event_hook_all_fail :
  (event_hook (Event := string) id inr
              (fun _ => Some (JsError true None "Error: logger unavailable"))
              (fun _ => always_fails) [target_a; target_b] "x").1
  = inr tt.
Proof. reflexivity. Qed.

Example as_TargetConfig_sample :
  as_TargetConfig
    (VObj None [("url", VStr "https://a.example.com");
                ("events", VArr [VStr "session.idle"]);
                ("retry", VObj None [("attempts", VNum 5)]);
                ("headers", VObj None [("X-API-Key", VStr "key")])])
  = Some {| url := "https://a.example.com";
            events := Some ["session.idle"];
            retry := Some {| attempts := Some 5%Z; delayMs := None |};
            headers := Some [("X-API-Key", "key")] |}.
Proof. reflexivity. Qed.

(** * Further properties of the code *)

(** ** [interpolate] *)

Lemma own_lookup_map_values {A B} (f : A -> B) (k : string)
    (props : list (string * A)) :
  own_lookup k (map (fun kv => (kv.1, f kv.2)) props)
  = f <$> own_lookup k props.
Proof.
  induction props as [|[k' v] ps IH]; [reflexivity|].
  simpl. destruct (String.eqb k k'); [reflexivity | exact IH].
Qed.

Lemma interpolate_object_map (env : Env) (proto : option value)
    (props : list (string * value)) :
  NoDup (map fst props) ->
  Forall (fun kv => kv.1 <> "__proto__") props ->
  interpolate env (VObj proto props)
  = VObj None (map (fun kv => (kv.1, interpolate env kv.2)) props).
Proof.
  intros Hnd Hk. simpl.
  now rewrite (copy_props (interpolate env) props [] Hnd Hk).
Qed.

(** X1. On an object whose keys are distinct and none of which is
    ["__proto__"], [interpolate] returns a plain object with the same keys in
    the same order, each value interpolated; the prototype of the input
    plays no part. *)
Theorem interpolate_object_entries (env : Env) (proto : option value)
    (props : list (string * value)) :
  NoDup (map fst props) ->
  Forall (fun kv => kv.1 <> "__proto__") props ->
  interpolate env (VObj proto props)
  = VObj None (map (fun kv => (kv.1, interpolate env kv.2)) props).
Proof.
  apply interpolate_object_map.
Qed.

Lemma interpolate_object_entries_witness :
  interpolate sample_env
    (VObj None [("url", VStr "https://h/{env:TEST_VAR}");
                ("headers", VObj None [("X", VStr "{env:ANOTHER_VAR}")])])
  = VObj None [("url", VStr "https://h/hello");
               ("headers", VObj None [("X", VStr "world")])].
Proof.
  rewrite (interpolate_object_entries sample_env None).
  - reflexivity.
  - apply (bool_decide_eq_true_1 _). vm_compute. reflexivity.
  - repeat constructor; discriminate.
Defined.

(** X2. A token at the start of a string is replaced by what the read
    [process.env[NAME]] gives (the value of the variable when it is set),
    or by the empty string when the read gives [undefined]; the text is
    inserted exactly as it is, even when it contains tokens itself, and the
    rest of the string is interpolated as it would be on its own. *)
Theorem interpolate_token_verbatim (env : Env) (name rest : string) :
  name <> "" -> str_mem "}" name = false ->
  exists rest',
    interpolate env (VStr rest) = VStr rest' /\
    interpolate env (VStr ("{env:" +:+ name +:+ "}" +:+ rest))
    = VStr (default "" (env name) +:+ rest').
Proof.
  intros Hne Hmem. exists (replace env_re (env_value env) rest).
  split; [reflexivity|]. simpl. f_equal.
  apply (replace_token (env_value env) _ name rest).
  repeat split; assumption.
Qed.

Lemma interpolate_token_verbatim_witness :
  interpolate (env_of (fun name => if String.eqb name "A" then Some "{env:B}"
                                   else if String.eqb name "B" then Some "b"
                                   else None)
                      Sample.native_text)
              (VStr "{env:A}/{env:B}")
  = VStr "{env:B}/b".
Proof.
  destruct (interpolate_token_verbatim
              (env_of (fun name => if String.eqb name "A" then Some "{env:B}"
                                   else if String.eqb name "B" then Some "b"
                                   else None)
                      Sample.native_text) "A" "/{env:B}")
    as (rest' & Hrest & H); [discriminate | reflexivity |].
  change ("{env:A}/{env:B}") with ("{env:" +:+ "A" +:+ "}" +:+ "/{env:B}").
  rewrite H. inversion Hrest; subst. reflexivity.
Defined.

(** X18. On JSON data (plain objects with distinct keys) in which no
    string contains a token and no key is ["__proto__"], [interpolate]
    changes nothing, at any depth of nesting. *)
Theorem interpolate_leaves_token_free_json (env : Env) (v : value) :
  is_json v = true -> no_tokens v = true -> no_proto_key v = true ->
  interpolate env v = v.
Proof. apply interpolate_identity. Qed.

Lemma interpolate_leaves_token_free_json_witness :
  let v := VObj None [("targets",
                       VArr [VObj None [("url", VStr "https://h/{x}");
                                        ("retry", VObj None
                                           [("attempts", VNum 3)])];
                             VNull; VBool true])] in
  interpolate sample_env v = v.
Proof.
  apply interpolate_leaves_token_free_json; vm_compute; reflexivity.
Defined.

(** ** [readConfigFile] *)

(** X3. A read that fails for any reason other than a missing file (an
    [Error] whose [code] is ["ENOENT"]) makes [readConfigFile] print one
    warning, naming the file and the error, and return [null]; nothing is
    parsed. *)
Theorem readConfigFile_read_error_warns (pf : Platform) (filePath : string)
    (err : js_error) :
  readFileSync pf filePath = inl err ->
  isNotFound err = false ->
  readConfigFile pf filePath []
  = (inr None,
     [IoRead filePath;
      IoWarn ("[opencode-event-push] Could not read " +:+ filePath
              +:+ ": " +:+ err_text err)]).
Proof.
  intros Hread Hnf.
  unfold readConfigFile, read_file. unfold_M. simpl.
  rewrite Hread. simpl. rewrite Hnf. reflexivity.
Qed.

Lemma readConfigFile_read_error_warns_witness :
  readConfigFile
    {| process_env := env_of (fun _ => None) Sample.native_text;
       readFileSync := denied;
       JSON_parse := Sample.parse; null_read_text := "";
       homedir := "/home/testuser"; join := Sample.join_segments |}
    "/bad.json" []
  = (inr None,
     [IoRead "/bad.json";
      IoWarn ("[opencode-event-push] Could not read /bad.json: "
              +:+ "Error: EACCES: permission denied")]).
Proof.
  apply (readConfigFile_read_error_warns _ "/bad.json"
           (JsError true (Some "EACCES") "Error: EACCES: permission denied"));
    reflexivity.
Defined.

(** X4. When the file parses to anything but [null] and the [targets]
    property of the result is not an array (it is missing, or a string, a
    number, an object, ...), [readConfigFile] prints one warning and returns
    [{ targets: [] }]. *)
Theorem readConfigFile_no_targets_array (pf : Platform)
    (filePath raw : string) (json : value) :
  readFileSync pf filePath = inr raw ->
  JSON_parse pf raw = inr json ->
  json <> VNull ->
  (forall items,
     get_prop (interpolate (process_env pf) json) "targets"
     <> Some (VArr items)) ->
  readConfigFile pf filePath []
  = (inr (Some {| targets := [] |}),
     [IoRead filePath; IoParse raw;
      IoWarn ("[opencode-event-push] " +:+ filePath
              +:+ " is missing a 'targets' array — skipping")]).
Proof.
  intros Hread Hparse Hnull Hnot.
  unfold readConfigFile, read_file, parse_json, read_targets. unfold_M.
  simpl. rewrite Hread. simpl. rewrite Hparse. simpl.
  destruct (interpolate (process_env pf) json) as [| | | |its|p props] eqn:E.
  - destruct json; try discriminate; [congruence|].
    simpl in E. destruct (fold_left _ _ _); discriminate.
  - reflexivity.
  - reflexivity.
  - reflexivity.
  - reflexivity.
  - cbn -[get_prop].
    destruct (get_prop (VObj p props) "targets") as [[| | | |its|]|] eqn:G;
      try reflexivity.
    now destruct (Hnot its).
Qed.

Lemma readConfigFile_no_targets_array_witness :
  readConfigFile (Sample.platform sample_vars sample_files)
                 "/bad-targets.json" []
  = (inr (Some {| targets := [] |}),
     [IoRead "/bad-targets.json";
      IoParse ("{" +:+ Sample.quoted "targets" +:+ ": "
               +:+ Sample.quoted "oops" +:+ "}");
      IoWarn ("[opencode-event-push] /bad-targets.json"
              +:+ " is missing a 'targets' array — skipping")]).
Proof.
  apply (readConfigFile_no_targets_array
           (Sample.platform sample_vars sample_files) "/bad-targets.json" _
           (VObj None [("targets", VStr "oops")])).
  - reflexivity.
  - vm_compute. reflexivity.
  - discriminate.
  - intros items. vm_compute. discriminate.
Defined.

(** X5. When the file parses to an object with distinct keys, none named
    ["__proto__"], whose [targets] is an array, [readConfigFile] returns
    those targets, each interpolated, in the same order, and prints
    nothing. *)
Theorem readConfigFile_interpolated_targets (pf : Platform)
    (filePath raw : string) (props : list (string * value))
    (ts : list value) :
  readFileSync pf filePath = inr raw ->
  JSON_parse pf raw = inr (VObj None props) ->
  NoDup (map fst props) ->
  Forall (fun kv => kv.1 <> "__proto__") props ->
  own_lookup "targets" props = Some (VArr ts) ->
  readConfigFile pf filePath []
  = (inr (Some {| targets := map (interpolate (process_env pf)) ts |}),
     [IoRead filePath; IoParse raw]).
Proof.
  intros Hread Hparse Hnd Hk Hts.
  unfold readConfigFile, read_file, parse_json, read_targets. unfold_M.
  simpl app. rewrite Hread. cbv beta iota. rewrite Hparse. cbv beta iota.
  rewrite (interpolate_object_map (process_env pf) None props Hnd Hk).
  cbv beta iota. unfold get_prop.
  rewrite own_lookup_map_values, Hts. reflexivity.
Qed.

Lemma readConfigFile_interpolated_targets_witness :
  readConfigFile (Sample.platform sample_vars sample_files) "/env.json" []
  = (inr (Some {| targets := [VObj None [("url", VStr "hello")]] |}),
     [IoRead "/env.json";
      IoParse ("{" +:+ Sample.quoted "targets" +:+ ": [{"
               +:+ Sample.quoted "url" +:+ ": "
               +:+ Sample.quoted "{env:TEST_VAR}" +:+ "}]}")]).
Proof.
  apply (readConfigFile_interpolated_targets
           (Sample.platform sample_vars sample_files) "/env.json" _
           [("targets", VArr [VObj None [("url", VStr "{env:TEST_VAR}")]])]
           [VObj None [("url", VStr "{env:TEST_VAR}")]]).
  - reflexivity.
  - vm_compute. reflexivity.
  - apply (bool_decide_eq_true_1 _). vm_compute. reflexivity.
  - repeat constructor; discriminate.
  - reflexivity.
Defined.

(** X6. A file whose content is the JSON document [null] parses, but
    reading [targets] from it throws; [readConfigFile] prints the warning of
    the [catch] block and returns [null], not [{ targets: [] }] as for
    every other document without a [targets] array. *)
Theorem readConfigFile_null_json (pf : Platform) (filePath raw : string) :
  readFileSync pf filePath = inr raw ->
  JSON_parse pf raw = inr VNull ->
  readConfigFile pf filePath []
  = (inr None,
     [IoRead filePath; IoParse raw;
      IoWarn ("[opencode-event-push] Could not read " +:+ filePath
              +:+ ": " +:+ null_read_text pf)]).
Proof.
  intros Hread Hparse.
  unfold readConfigFile, read_file, parse_json, read_targets. unfold_M.
  simpl. rewrite Hread. simpl. rewrite Hparse. reflexivity.
Qed.

Lemma readConfigFile_null_json_witness :
  (readConfigFile (Sample.platform sample_vars sample_files)
                  "/null.json" []).1 = inr None.
Proof.
  rewrite (readConfigFile_null_json
             (Sample.platform sample_vars sample_files) "/null.json" "null");
    reflexivity.
Defined.

(** X7. Whatever the file system and the parser answer, [readConfigFile]
    returns and does not throw; it reads the file once, parses at most
    once and prints at most one warning.  It returns [null] without a
    warning only for a missing file, and a config comes from a file that
    was read and parsed; a config with targets comes without a warning. *)
Theorem readConfigFile_effects (pf : Platform) (filePath : string) :
  exists config rest,
    readConfigFile pf filePath [] = (inr config, IoRead filePath :: rest) /\
    reads rest = [] /\
    length (parses rest) <= 1 /\
    length (warnings rest) <= 1 /\
    (config = None -> warnings rest = [] ->
     exists err, readFileSync pf filePath = inl err /\ isNotFound err = true) /\
    (forall c, config = Some c ->
       (exists raw json,
          readFileSync pf filePath = inr raw /\ JSON_parse pf raw = inr json) /\
       (targets c <> [] -> warnings rest = [])).
Proof.
  unfold readConfigFile, read_file, parse_json, read_targets. unfold_M.
  simpl.
  destruct (readFileSync pf filePath) as [err|raw] eqn:Hread; simpl.
  { destruct (isNotFound err) eqn:Hnf; simpl; eexists _, _;
      (split; [reflexivity|]); simpl; repeat split; try lia; try discriminate.
    intros _ _. now exists err. }
  destruct (JSON_parse pf raw) as [text|json] eqn:Hparse; simpl.
  { eexists _, _; (split; [reflexivity|]); simpl; repeat split; try lia;
      discriminate. }
  destruct (interpolate (process_env pf) json) as [| | | |items|p props] eqn:E;
    cbn -[get_prop];
    try (destruct (get_prop _ "targets") as [[| | | |its|]|]);
    eexists _, _; (split; [reflexivity|]); simpl;
    repeat split; try lia; try discriminate;
    try (now exists raw, json); try reflexivity;
    try match goal with
        | H : Some _ = Some _ |- _ => inversion H; subst; clear H
        end;
    try (now exists raw, json); try reflexivity;
    try (intros Hne; exfalso; apply Hne; reflexivity).
Qed.

(** ** [loadConfig] *)

Lemma readConfigFile_trace_shape (pf : Platform) (path : string) :
  exists config rest,
    readConfigFile pf path [] = (inr config, IoRead path :: rest) /\
    reads rest = [] /\ length (warnings rest) <= 1.
Proof.
  unfold readConfigFile, read_file, parse_json, read_targets. unfold_M.
  simpl.
  destruct (readFileSync pf path) as [err|raw]; simpl.
  { destruct (isNotFound err); simpl; eexists _, _;
      (split; [reflexivity|]); simpl; split; (reflexivity || lia). }
  destruct (JSON_parse pf raw) as [text|json]; simpl.
  { eexists _, _; (split; [reflexivity|]); simpl; split;
      (reflexivity || lia). }
  destruct (interpolate (process_env pf) json) as [| | | |items|p props];
    cbn -[get_prop];
    try (destruct (get_prop _ "targets") as [[| | | |its|]|]);
    eexists _, _; (split; [reflexivity|]); simpl; split;
    (reflexivity || lia).
Qed.

Lemma reads_app (tr1 tr2 : list io_event) :
  reads (tr1 ++ tr2) = reads tr1 ++ reads tr2.
Proof. apply omap_app. Qed.

Lemma warnings_app (tr1 tr2 : list io_event) :
  warnings (tr1 ++ tr2) = warnings tr1 ++ warnings tr2.
Proof. apply omap_app. Qed.

(** X8. [loadConfig] does what two calls of [readConfigFile] do, one after
    the other: it reads the global file first, then the project file when
    the directory argument is a non-empty string, whatever became of the
    global file; so it reads one or two files and prints at most two
    warnings. *)
Theorem loadConfig_effects (pf : Platform) (directory : option string) :
  let project :=
    match directory with
    | Some d => if String.eqb d "" then None else Some (project_path pf d)
    | None => None
    end in
  let tr := (loadConfig pf directory []).2 in
  tr = (readConfigFile pf (global_path pf) []).2
       ++ match project with
          | Some p => (readConfigFile pf p []).2
          | None => []
          end /\
  reads tr = global_path pf :: match project with
                               | Some p => [p]
                               | None => []
                               end /\
  length (warnings tr) <= 2.
Proof.
  cbv zeta. unfold loadConfig. fold (global_path pf).
  unfold mbind, M_bind, bind.
  destruct (readConfigFile_trace_shape pf (global_path pf))
    as (g & grest & Hg & Hgr & Hgw).
  rewrite Hg.
  assert (Hnone :
    (ret {| targets := targets_or_empty g ++ targets_or_empty None |}
       (IoRead (global_path pf) :: grest)).2
    = IoRead (global_path pf) :: grest) by reflexivity.
  destruct directory as [d|]; [destruct (String.eqb d "") eqn:Ed|].
  - cbv beta iota. unfold ret at 1. cbv beta iota. simpl snd.
    rewrite app_nil_r. split; [reflexivity|]. simpl. rewrite Hgr.
    split; [reflexivity | lia].
  - fold (project_path pf d). cbv beta iota.
    destruct (readConfigFile_frame pf (project_path pf d)
                (IoRead (global_path pf) :: grest))
      as (p & pevs & Hp0 & Hp).
    destruct (readConfigFile_trace_shape pf (project_path pf d))
      as (p' & prest & Hp' & Hpr & Hpw).
    rewrite Hp' in Hp0. inversion Hp0; subst p' pevs; clear Hp0.
    rewrite Hp, Hp'. simpl snd.
    split; [reflexivity|].
    change (reads (IoRead (global_path pf)
                   :: (grest ++ IoRead (project_path pf d) :: prest))
            = [global_path pf; project_path pf d] /\
            length (warnings (grest ++ IoRead (project_path pf d) :: prest))
            <= 2).
    change (reads (IoRead (global_path pf)
                   :: (grest ++ IoRead (project_path pf d) :: prest)))
      with (global_path pf
            :: reads (grest ++ IoRead (project_path pf d) :: prest)).
    rewrite reads_app, warnings_app, Hgr, length_app.
    change (reads (IoRead (project_path pf d) :: prest))
      with (project_path pf d :: reads prest).
    change (warnings (IoRead (project_path pf d) :: prest))
      with (warnings prest).
    rewrite Hpr. split; [reflexivity | lia].
  - cbv beta iota. unfold ret at 1. cbv beta iota. simpl snd.
    rewrite app_nil_r. split; [reflexivity|]. simpl. rewrite Hgr.
    split; [reflexivity | lia].
Qed.

(** ** [pushToTarget] *)

Lemma requests_app (tr1 tr2 : list net_event) :
  requests (tr1 ++ tr2) = requests tr1 ++ requests tr2.
Proof. apply omap_app. Qed.

Lemma log_calls_app (tr1 tr2 : list net_event) :
  log_calls (tr1 ++ tr2) = log_calls tr1 ++ log_calls tr2.
Proof. apply omap_app. Qed.

Section DeliveryMore.

Context {Payload : Type}.
Variable JSON_stringify : Payload -> js_error + string.
Variable fetch : nat -> Request -> js_error + Response.
Variable log : string -> LogExtra -> option js_error.
Variable target : TargetConfig.
Variable payload : Payload.

Local Abbreviation once := (attempt_once JSON_stringify fetch log (url target)
                    (default [] (headers target)) (effective_attempts target)
                    (effective_delay target) payload).
Local Abbreviation loop left := (attempts_from JSON_stringify fetch log left
                    (url target) (default [] (headers target))
                    (effective_attempts target) (effective_delay target)
                    payload).

(** The ways one iteration can go: the request, when there is one, then
    nothing more (success), the failure report (last attempt), or the wait
    (any other attempt). *)
Lemma attempt_once_outcome (attempt : Z) (tr : list net_event) :
  exists pre,
    (pre = [] \/
     exists body, JSON_stringify payload = inr body /\
                  pre = [EvFetch (post_request target body)]) /\
    ((once attempt tr = (inr Return, tr ++ pre) /\ pre <> []) \/
     (attempt = (effective_attempts target - 1)%Z /\
      exists text r,
        once attempt tr
        = (r, tr ++ pre ++ [EvLog (failure_message target text)
                                  (failure_extra target text)]) /\
        r <> inr Continue) \/
     (attempt <> (effective_attempts target - 1)%Z /\
      once attempt tr
      = (inr Continue,
         tr ++ pre ++ [EvSleep (effective_delay target * 2 ^ attempt)]))).
Proof.
  destruct (JSON_stringify payload) as [e|body] eqn:Hbody.
  - exists []. split; [now left|].
    rewrite (attempt_once_unsent _ _ _ _ _ e attempt tr Hbody).
    destruct (Z.eqb_spec attempt (effective_attempts target - 1)) as [He|He].
    + right; left. split; [exact He|]. eexists _, _. split; [reflexivity|].
      destruct (log_result _ _ _) as [?|[]]; discriminate.
    + right; right. now split.
  - exists [EvFetch (post_request target body)].
    split; [right; now exists body|].
    rewrite (attempt_once_sent _ _ _ _ _ body attempt tr Hbody). cbv zeta.
    destruct (failed _); [|left; split; [reflexivity | discriminate]].
    destruct (Z.eqb_spec attempt (effective_attempts target - 1)) as [He|He].
    + right; left. split; [exact He|]. eexists _, _.
      split; [rewrite <- app_assoc; reflexivity|].
      destruct (log_result _ _ _) as [?|[]]; discriminate.
    + right; right. split; [exact He|]. now rewrite <- app_assoc.
Qed.

(** What any run of the loop adds to the trace. *)
Lemma loop_shape (left : nat) (attempt : Z) (tr : list net_event) :
  Z.of_nat left = (effective_attempts target - attempt)%Z ->
  exists tl,
    (loop left attempt tr).2 = tr ++ tl /\
    length (requests tl) <= left /\
    Forall (fun r => exists body, JSON_stringify payload = inr body /\
                                  r = post_request target body)
           (requests tl) /\
    length (delays tl) <= left - 1 /\
    (log_calls tl = [] \/
     exists text,
       log_calls tl = [(failure_message target text,
                        failure_extra target text)] /\
       last tl = Some (EvLog (failure_message target text)
                             (failure_extra target text)) /\
       length (delays tl) = left - 1 /\ 0 < left).
Proof.
  revert attempt tr; induction left as [|left IH]; intros attempt tr Hleft.
  - exists []. simpl. rewrite app_nil_r. repeat split; auto.
  - rewrite loop_S.
    replace (Z.ltb attempt (effective_attempts target)) with true
      by (symmetry; apply Z.ltb_lt; lia).
    destruct (attempt_once_outcome attempt tr)
      as (pre & Hpre & [[-> Hne] | [(Hlast & text & r & -> & Hr)
                                   | (Hnot & ->)]]).
    + exists pre. split; [reflexivity|].
      destruct Hpre as [-> | (body & Hbody & ->)]; [congruence|].
      simpl. repeat split; try lia; [|now left].
      constructor; [now exists body | constructor].
    + exists (pre ++ [EvLog (failure_message target text)
                            (failure_extra target text)]).
      assert (left = 0) as -> by lia.
      split; [now destruct r as [?|[|]]|].
      rewrite requests_app, log_calls_app, delays_app, !length_app.
      destruct Hpre as [-> | (body & Hbody & ->)]; simpl;
        (repeat split; try lia;
         [ try (constructor; [now exists body | constructor]);
           try constructor
         | right; exists text; repeat split; lia ]).
    + cbv beta iota.
      destruct (IH (attempt + 1)%Z
                  (tr ++ pre
                   ++ [EvSleep (effective_delay target * 2 ^ attempt)]))
        as (tl & -> & Hreq & Hshape & Hdel & Hlog); [lia|].
      exists ((pre ++ [EvSleep (effective_delay target * 2 ^ attempt)])
              ++ tl).
      split; [now rewrite <- !app_assoc|].
      rewrite !requests_app, !log_calls_app, !delays_app, !length_app.
      assert (Hl : 0 < left) by lia.
      destruct Hpre as [-> | (body & Hbody & ->)]; simpl;
        (split; [lia|]);
        (split; [try (constructor; [now exists body|]); exact Hshape|]);
        (split; [lia|]);
        (destruct Hlog as [Hlog | (text & Hlog & Hlast & Hd & Hpos)];
         [now left|]);
        right; exists text; (split; [exact Hlog|]);
        (split; [|lia]);
        rewrite !last_cons, Hlast; reflexivity.
Qed.

Lemma pushToTarget_shape :
  exists tl,
    (pushToTarget JSON_stringify fetch log target payload []).2 = tl /\
    length (requests tl) <= Z.to_nat (effective_attempts target) /\
    Forall (fun r => exists body, JSON_stringify payload = inr body /\
                                  r = post_request target body)
           (requests tl) /\
    length (delays tl) <= Z.to_nat (effective_attempts target) - 1 /\
    (log_calls tl = [] \/
     exists text,
       log_calls tl = [(failure_message target text,
                        failure_extra target text)] /\
       last tl = Some (EvLog (failure_message target text)
                             (failure_extra target text)) /\
       length (delays tl) = Z.to_nat (effective_attempts target) - 1 /\
       0 < Z.to_nat (effective_attempts target)).
Proof.
  unfold pushToTarget.
  destruct (Z_le_gt_dec 0 (effective_attempts target)) as [Hn|Hn].
  - destruct (loop_shape (Z.to_nat (effective_attempts target)) 0 [])
      as (tl & -> & H); [lia|]. now exists tl.
  - replace (Z.to_nat (effective_attempts target)) with 0 by lia.
    exists []. simpl. repeat split; auto.
Qed.

End DeliveryMore.


Section DeliveryExtras.

Context {Payload : Type}.
Variable JSON_stringify : Payload -> js_error + string.
Variable fetch : nat -> Request -> js_error + Response.
Variable log : string -> LogExtra -> option js_error.
Variable target : TargetConfig.
Variable payload : Payload.

Local Abbreviation loop left := (attempts_from JSON_stringify fetch log left
                    (url target) (default [] (headers target))
                    (effective_attempts target) (effective_delay target)
                    payload).

Lemma loop_success (body : string) (res : Response) :
  JSON_stringify payload = inr body ->
  ok res = true ->
  forall k left attempt tr,
    Z.of_nat left = (effective_attempts target - attempt)%Z ->
    (0 <= attempt)%Z ->
    count_fetch tr = Z.to_nat attempt ->
    (attempt + Z.of_nat k < effective_attempts target)%Z ->
    (forall j, Z.to_nat attempt <= j < Z.to_nat attempt + k ->
               failed (fetch j (post_request target body)) = true) ->
    fetch (Z.to_nat attempt + k) (post_request target body) = inr res ->
    loop left attempt tr
    = (inr tt,
       tr ++ retry_prefix (post_request target body) (effective_delay target)
               (Z.to_nat attempt) k
          ++ [EvFetch (post_request target body)]).
Proof.
  intros Hbody Hok.
  induction k as [|k IH];
    intros left attempt tr Hleft Hatt Hcount Hk Hfail Hres;
    (destruct left as [|left]; [lia|]);
    rewrite loop_S, (attempt_once_sent _ _ _ _ _ body attempt tr Hbody);
    cbv zeta;
    (replace (Z.ltb attempt (effective_attempts target)) with true
       by (symmetry; apply Z.ltb_lt; lia));
    rewrite Hcount.
  - rewrite Nat.add_0_r in Hres. rewrite Hres. simpl failed. rewrite Hok.
    reflexivity.
  - rewrite Hfail by lia.
    replace (Z.eqb attempt (effective_attempts target - 1)) with false
      by (symmetry; apply Z.eqb_neq; lia).
    cbv beta iota. rewrite (IH left (attempt + 1)%Z); try lia.
    + f_equal. unfold retry_prefix. simpl seq. simpl flat_map.
      rewrite <- !app_assoc. simpl.
      replace (Z.to_nat (attempt + 1)) with (S (Z.to_nat attempt)) by lia.
      now rewrite Z2Nat.id by lia.
    + rewrite count_fetch_sent. lia.
    + intros j Hj. apply Hfail. lia.
    + replace (Z.to_nat (attempt + 1) + k) with (Z.to_nat attempt + S k)
        by lia.
      exact Hres.
Qed.


(** X10. With an effective number of attempts of zero or less,
    [pushToTarget] does nothing at all: no request, no wait and no failure
    report; it returns normally. *)
Theorem pushToTarget_no_attempts :
  (effective_attempts target <= 0)%Z ->
  pushToTarget JSON_stringify fetch log target payload [] = (inr tt, []).
Proof.
  intros Hn. unfold pushToTarget.
  replace (Z.to_nat (effective_attempts target)) with 0 by lia.
  reflexivity.
Qed.



(** X12. In every run, whatever the network, the serializer and the logger
    do: [pushToTarget] sends at most [n] requests, every one the same POST
    of the serialized payload to the target's URL with the target's
    headers, waits at most [n - 1] times and calls [log] at most once. *)
Theorem pushToTarget_bounds :
  let tr := (pushToTarget JSON_stringify fetch log target payload []).2 in
  let n := Z.to_nat (effective_attempts target) in
  length (requests tr) <= n /\
  (forall r, In r (requests tr) ->
     exists body,
       JSON_stringify payload = inr body /\ r = post_request target body /\
       req_method r = "POST" /\ req_url r = url target) /\
  length (delays tr) <= n - 1 /\
  length (log_calls tr) <= 1.
Proof.
  cbv zeta.
  destruct (pushToTarget_shape JSON_stringify fetch log target payload)
    as (tl & -> & Hreq & Hshape & Hdel & Hlog).
  split; [exact Hreq|]. split; [|split; [exact Hdel|]].
  - intros r Hr. rewrite List.Forall_forall in Hshape.
    destruct (Hshape r Hr) as (body & Hbody & ->). now exists body.
  - destruct Hlog as [-> | (text & -> & _)]; simpl; lia.
Qed.

(** X13. [log] is only ever called to report exhaustion: when a run calls
    it, that call is the last thing the run does, all [n - 1] waits have
    been made before it, and its arguments are the failure message and the
    extra fields of the target. *)
Theorem pushToTarget_log_only_when_exhausted (message : string)
    (extra : LogExtra) :
  let tr := (pushToTarget JSON_stringify fetch log target payload []).2 in
  In (EvLog message extra) tr ->
  last tr = Some (EvLog message extra) /\
  length (delays tr) = Z.to_nat (effective_attempts target) - 1 /\
  (1 <= effective_attempts target)%Z /\
  exists text,
    message = failure_message target text /\
    extra = failure_extra target text.
Proof.
  cbv zeta.
  destruct (pushToTarget_shape JSON_stringify fetch log target payload)
    as (tl & -> & _ & _ & _ & Hlog).
  intros Hin.
  assert (Hmem : In (message, extra) (log_calls tl)).
  { clear Hlog. induction tl as [|[r|ms|m x] tl IH]; simpl in *;
      [contradiction| | |].
    - destruct Hin as [H|H]; [discriminate | auto].
    - destruct Hin as [H|H]; [discriminate | auto].
    - destruct Hin as [H|H]; [inversion H; now left | right; auto]. }
  destruct Hlog as [Hnil | (text & Hcalls & Hlast & Hd & Hpos)].
  - rewrite Hnil in Hmem. contradiction.
  - rewrite Hcalls in Hmem. destruct Hmem as [H|[]]. inversion H; subst.
    repeat split; [exact Hlast | exact Hd | lia |]. now exists text.
Qed.


End DeliveryExtras.


Lemma pushToTarget_no_attempts_witness :
  pushToTarget (Payload := string) inr always_fails log_rejects
               target_no_attempts "{}" []
  = (inr tt, []).
Proof.
  apply (pushToTarget_no_attempts (Payload := string)).
  vm_compute. discriminate.
Defined.


Lemma pushToTarget_log_only_when_exhausted_witness :
  length (delays (pushToTarget (Payload := string) inr always_fails
                    log_resolves sample_target "{}" []).2)
  = 2.
Proof.
  destruct (pushToTarget_log_only_when_exhausted (Payload := string) inr
              always_fails log_resolves sample_target "{}"
              ("Failed to push event to https://hook.example.com/push "
               +:+ "after 3 attempt(s): Error: always fails")
              {| extra_url := "https://hook.example.com/push";
                 extra_error := "Error: always fails";
                 extra_attempts := 3 |})
    as (_ & H & _).
  - vm_compute. do 5 right. left. reflexivity.
  - rewrite H. reflexivity.
Defined.


(** ** The request headers *)

Lemma own_lookup_store {A} (k k' : string) (v : A)
    (props : list (string * A)) :
  own_lookup k (own_store k' v props)
  = if String.eqb k k' then Some v else own_lookup k props.
Proof.
  induction props as [|[k0 v0] ps IH]; simpl.
  - reflexivity.
  - destruct (String.eqb_spec k' k0) as [->|Hne]; simpl.
    + now destruct (String.eqb k k0).
    + destruct (String.eqb_spec k k0) as [->|Hne'].
      * destruct (String.eqb_spec k0 k'); [congruence | reflexivity].
      * exact IH.
Qed.

Lemma own_lookup_app {A} (k : string) (l1 l2 : list (string * A)) :
  own_lookup k (l1 ++ l2)
  = match own_lookup k l1 with
    | Some v => Some v
    | None => own_lookup k l2
    end.
Proof.
  induction l1 as [|[k0 v0] l1 IH]; [reflexivity|].
  simpl. destruct (String.eqb k k0); [reflexivity | exact IH].
Qed.

Lemma own_store_keys {A} (k : string) (v : A) (props : list (string * A)) :
  NoDup (map fst props) -> NoDup (map fst (own_store k v props)).
Proof.
  induction props as [|[k0 v0] ps IH]; intros Hnd; simpl.
  - repeat constructor. set_solver.
  - destruct (String.eqb_spec k k0) as [->|Hne]; [exact Hnd|].
    simpl in *. apply NoDup_cons in Hnd as [Hnot Hnd].
    apply NoDup_cons. split; [|now apply IH].
    intros Hin. apply Hnot. clear -Hin Hne.
    induction ps as [|[k1 v1] ps IH]; simpl in *.
    + apply list_elem_of_singleton in Hin. congruence.
    + destruct (String.eqb_spec k k1) as [->|Hne1]; [exact Hin|].
      simpl in Hin. apply elem_of_cons in Hin as [->|Hin];
        [left | right; now apply IH].
Qed.

Lemma fold_store_lookup (k : string) (hs init : list (string * string)) :
  own_lookup k (fold_left (fun acc kv => own_store kv.1 kv.2 acc) hs init)
  = match own_lookup k (rev hs) with
    | Some v => Some v
    | None => own_lookup k init
    end.
Proof.
  revert init; induction hs as [|[k0 v0] hs IH]; intros init;
    [reflexivity|].
  simpl fold_left. rewrite IH. simpl rev. rewrite own_lookup_app.
  destruct (own_lookup k (rev hs)); [reflexivity|].
  rewrite own_lookup_store. simpl.
  now destruct (String.eqb k k0).
Qed.

(** X15. The headers of a request are the target's headers on top of
    [Content-Type: application/json]: a header the target sets has the
    target's value (the last one given), [Content-Type] is
    [application/json] unless the target sets it under exactly that name,
    no other header is sent, and no name occurs twice. *)
Theorem request_headers_lookup (hs : list (string * string)) (k : string) :
  own_lookup k (request_headers hs)
  = match own_lookup k (rev hs) with
    | Some v => Some v
    | None =>
        if String.eqb k "Content-Type" then Some "application/json" else None
    end
  /\ NoDup (map fst (request_headers hs)).
Proof.
  unfold request_headers. split.
  - rewrite fold_store_lookup. simpl.
    destruct (own_lookup k (rev hs)); reflexivity.
  - assert (H : forall init : list (string * string),
               NoDup (map fst init) ->
               NoDup (map fst (fold_left
                                 (fun acc kv => own_store kv.1 kv.2 acc)
                                 hs init))).
    { induction hs as [|[k0 v0] hs IH]; intros init Hnd; [exact Hnd|].
      simpl. apply IH. now apply own_store_keys. }
    apply H. simpl. repeat constructor. set_solver.
Qed.

(** ** Dispatch and activation *)

Section PluginExtras.

Context {Event : Type}.
Variable type : Event -> string.
Variable JSON_stringify : Event -> js_error + string.
Variable app_log : LogBody -> option js_error.
Variable network : nat -> nat -> Request -> js_error + Response.

(** Every delivery of a dispatch is a run of [pushToTarget] on its own
    target, and the deliveries are at most as many as the targets. *)
Lemma event_hook_deliveries (targets : list TargetConfig) (ev : Event)
    (d : delivery) :
  In d (event_hook type JSON_stringify app_log network targets ev).2 ->
  exists i,
    In (delivered_to d) targets /\
    trace d = (pushToTarget JSON_stringify (network i) (log app_log)
                            (delivered_to d) ev []).2.
Proof.
  unfold event_hook.
  set (matching := List.filter (event_matches type ev) targets).
  destruct (Nat.eqb (length matching) 0); [intros []|].
  simpl. intros Hin. apply list_elem_of_In in Hin.
  apply elem_of_lookup_imap in Hin as (i & t & -> & Ht).
  exists i. simpl. split; [|reflexivity].
  apply list_elem_of_lookup_2, list_elem_of_In in Ht.
  subst matching. now apply List.filter_In in Ht as [Ht _].
Qed.

(** X16. In a dispatch, each delivery contacts only the URL of its own
    target, with that target's headers, at most as many times as that
    target has attempts, and reports to the logger at most once; there are
    never more deliveries than targets. *)
Theorem event_hook_bounds (targets : list TargetConfig) (ev : Event) :
  let out := event_hook type JSON_stringify app_log network targets ev in
  length out.2 <= length targets /\
  forall d, In d out.2 ->
    length (requests (trace d))
    <= Z.to_nat (effective_attempts (delivered_to d)) /\
    length (log_calls (trace d)) <= 1 /\
    forall r, In r (requests (trace d)) ->
      req_url r = url (delivered_to d) /\
      req_headers r
      = request_headers (default [] (headers (delivered_to d))).
Proof.
  cbv zeta. split.
  - unfold event_hook.
    destruct (Nat.eqb _ _); simpl; [lia|].
    rewrite length_imap. apply List.filter_length_le.
  - intros d Hd.
    destruct (event_hook_deliveries targets ev d Hd) as (i & _ & ->).
    destruct (pushToTarget_shape JSON_stringify (network i) (log app_log)
                (delivered_to d) ev)
      as (tl & -> & Hreq & Hshape & _ & Hlog).
    split; [exact Hreq|]. split.
    + destruct Hlog as [-> | (text & -> & _)]; simpl; lia.
    + intros r Hr. rewrite List.Forall_forall in Hshape.
      destruct (Hshape r Hr) as (body & _ & ->). now split.
Qed.

(** X17. Activation never throws and does exactly the reading that
    [loadConfig] does.  The hooks it returns have an [event] handler
    exactly when the merged target list is not empty, and the handler is
    closed over that whole list, in order. *)
Theorem EventPushPlugin_activation (pf : Platform)
    (directory : option string) :
  exists ts evs,
    loadConfig pf directory [] = (inr {| targets := ts |}, evs) /\
    EventPushPlugin pf directory []
    = (inr {| event := match ts with
                       | [] => None
                       | _ :: _ => Some {| hook_targets := ts |}
                       end |}, evs).
Proof.
  destruct (loadConfig_targets pf directory) as (evs & Hload).
  eexists _, evs. split; [exact Hload|].
  unfold EventPushPlugin, mbind, M_bind, bind. rewrite Hload. simpl.
  now destruct (file_targets pf (global_path pf)
                ++ project_targets pf directory).
Qed.

End PluginExtras.

(** ** The earlier version of the loader *)

(** X19. The earlier [loadConfig] always returns a config, never [null]
    and never an exception, after reading its one file once and printing
    at most one warning.  A missing file gives no targets silently; any
    other read error, or content that is not JSON, gives no targets and
    one warning; a [targets] array is returned as it was parsed, with no
    variable substitution. *)
Theorem V1_loadConfig_outcome (pf : Platform) (dirname : string) :
  let p := V1.config_path pf dirname in
  exists config rest,
    V1.loadConfig pf dirname [] = (inr config, IoRead p :: rest) /\
    reads rest = [] /\
    length (warnings rest) <= 1 /\
    (forall err, readFileSync pf p = inl err ->
       targets config = [] /\
       (warnings rest = [] <-> isNotFound err = true)) /\
    (forall raw text,
       readFileSync pf p = inr raw -> JSON_parse pf raw = inl text ->
       targets config = [] /\
       warnings rest
       = ["[opencode-event-push] Could not read "
          +:+ "event-push.json: " +:+ text]) /\
    (forall raw json items,
       readFileSync pf p = inr raw -> JSON_parse pf raw = inr json ->
       get_prop json "targets" = Some (VArr items) ->
       targets config = items /\ warnings rest = []).
Proof.
  cbv zeta. unfold V1.loadConfig, V1.config_path, read_file, parse_json,
    read_targets.
  set (p := join pf [dirname; ".."; "event-push.json"]).
  unfold_M. simpl.
  destruct (readFileSync pf p) as [err|raw] eqn:Hread; simpl.
  { destruct (isNotFound err) eqn:Hnf; simpl; eexists _, _;
      (split; [reflexivity|]); simpl;
      (split; [reflexivity|]); (split; [lia|]);
      repeat split; intros; simplify_eq/=; congruence. }
  destruct (JSON_parse pf raw) as [text|json] eqn:Hparse; simpl.
  { eexists _, _; (split; [reflexivity|]); simpl;
      (split; [reflexivity|]); (split; [lia|]);
      repeat split; intros; simplify_eq/=; congruence. }
  destruct json as [| | | |items|q props]; cbn -[get_prop];
    try (destruct (get_prop _ "targets") as [[| | | |its|]|] eqn:G);
    eexists _, _; (split; [reflexivity|]); simpl;
    (split; [reflexivity|]); (split; [lia|]);
    repeat split; intros; simplify_eq/=; try reflexivity;
    try match goal with
        | Ha : ?f = inr ?j, Hb : ?f = inr ?v |- _ =>
            is_var j; assert (j = v) by congruence; subst j
        end;
    simpl in *; congruence.
Qed.

(** X20. On a file whose content is token-free JSON without a
    ["__proto__"] key (or is missing, unreadable or malformed), the earlier
    [loadConfig] and the present [readConfigFile] yield the same
    targets. *)
Theorem V1_loadConfig_agrees (pf : Platform) (dirname : string) :
  let p := V1.config_path pf dirname in
  (forall raw json,
     readFileSync pf p = inr raw -> JSON_parse pf raw = inr json ->
     is_json json = true /\ no_tokens json = true /\
     no_proto_key json = true) ->
  (V1.loadConfig pf dirname []).1 = inr {| targets := file_targets pf p |}.
Proof.
  cbv zeta. intros Hplain.
  unfold file_targets, readConfigFile, V1.loadConfig, V1.config_path,
    read_file, parse_json, read_targets in *.
  set (p := join pf [dirname; ".."; "event-push.json"]) in *.
  unfold_M. simpl.
  destruct (readFileSync pf p) as [err|raw] eqn:Hread; simpl.
  { now destruct (isNotFound err). }
  destruct (JSON_parse pf raw) as [text|json] eqn:Hparse; simpl;
    [reflexivity|].
  destruct (Hplain raw json eq_refl Hparse) as (Hj & Ht & Hp).
  rewrite (interpolate_identity (process_env pf) json Hj Ht Hp).
  destruct json as [| | | |items|q props]; cbn -[get_prop];
    try reflexivity.
  now destruct (get_prop (VObj q props) "targets") as [[| | | |its|]|].
Qed.

Lemma V1_loadConfig_agrees_witness :
  let pf := {| process_env := sample_env;
               readFileSync := Sample.read_from
                 [("/plugin/event-push.json", sample_global_config)];
               JSON_parse := Sample.parse; null_read_text := "";
               homedir := "/home/testuser";
               join := fun _ => "/plugin/event-push.json" |} in
  (V1.loadConfig pf "/plugin/src" []).1
  = inr {| targets :=
             [VObj None [("url", VStr "https://global.example.com")]] |}.
Proof.
  intros pf. rewrite (V1_loadConfig_agrees pf "/plugin/src").
  - vm_compute. reflexivity.
  - intros raw json Hraw Hjson.
    vm_compute in Hraw. inversion Hraw; subst raw; clear Hraw.
    vm_compute in Hjson. inversion Hjson; subst json; clear Hjson.
    repeat split; vm_compute; reflexivity.
Defined.

(** ** The test server *)

Import TestServer.

Lemma split_from_nonempty (line s : string) : split_from line s <> [].
Proof.
  revert line. induction s as [|c t IH]; intros line; simpl;
    [discriminate|].
  destruct (Ascii.eqb c newline); [discriminate | apply IH].
Qed.

Lemma join_lines_cons (l : string) (rest : list string) :
  rest <> [] ->
  join_lines (l :: rest) = l +:+ String newline (join_lines rest).
Proof. destruct rest; [congruence | reflexivity]. Qed.

Lemma join_split_from (line s : string) :
  join_lines (split_from line s) = line +:+ s.
Proof.
  revert line. induction s as [|c t IH]; intros line; simpl.
  - now rewrite append_nil_r.
  - destruct (Ascii.eqb c newline) eqn:E.
    + apply Ascii.eqb_eq in E. subst c.
      rewrite join_lines_cons by apply split_from_nonempty.
      now rewrite IH, append_nil_l.
    + rewrite IH, append_assoc, append_cons, append_nil_l. reflexivity.
Qed.

Lemma free_of_app (c : ascii) (a b : string) :
  free_of c (a +:+ b) = free_of c a && free_of c b.
Proof.
  induction a as [|x a IH]; [now rewrite append_nil_l|].
  rewrite append_cons. simpl. rewrite IH. now rewrite andb_assoc.
Qed.

Lemma split_from_free (line s : string) :
  free_of newline line = true ->
  Forall (fun l => free_of newline l = true) (split_from line s).
Proof.
  revert line. induction s as [|c t IH]; intros line Hline; simpl.
  - now constructor.
  - destruct (Ascii.eqb c newline) eqn:E.
    + constructor; [exact Hline | now apply IH].
    + apply IH. rewrite free_of_app, Hline. simpl. now rewrite E.
Qed.

Lemma split_from_line (line l rest : string) :
  free_of newline l = true ->
  split_from line (l +:+ rest) = split_from (line +:+ l) rest.
Proof.
  revert line. induction l as [|c l IH]; intros line Hl.
  - now rewrite append_nil_l, append_nil_r.
  - rewrite append_cons. simpl in *.
    apply andb_true_iff in Hl as [Hc Hl].
    apply negb_true_iff in Hc. rewrite Hc, IH by exact Hl.
    now rewrite append_assoc, append_cons, append_nil_l.
Qed.

Lemma split_from_join (line : string) (ls : list string) :
  ls <> [] ->
  Forall (fun l => free_of newline l = true) ls ->
  split_from line (join_lines ls)
  = match ls with
    | l :: rest => (line +:+ l) :: rest
    | [] => []
    end.
Proof.
  revert line. induction ls as [|l rest IH]; intros line Hne Hfree;
    [congruence|].
  apply Forall_cons in Hfree as [Hl Hrest].
  destruct rest as [|l' rest].
  - simpl join_lines. rewrite <- (append_nil_r l) at 1.
    now rewrite split_from_line.
  - rewrite join_lines_cons by discriminate.
    rewrite split_from_line by exact Hl.
    simpl split_from. rewrite ?Ascii.eqb_refl.
    rewrite IH by (try discriminate; exact Hrest).
    now rewrite append_nil_l.
Qed.

Lemma replace_first_char (c : ascii) (rep a b : string) :
  free_of c a = true ->
  replace_first (String c "") rep (a +:+ String c b) = a +:+ rep +:+ b.
Proof.
  induction a as [|x a IH]; intros Ha.
  - rewrite !append_nil_l. simpl. now rewrite Ascii.eqb_refl.
  - rewrite !append_cons. simpl in *.
    apply andb_true_iff in Ha as [Hx Ha]. apply negb_true_iff in Hx.
    rewrite Hx, IH by exact Ha. reflexivity.
Qed.

Lemma startsWith_free (c : ascii) (p s : string) :
  free_of c p = false -> free_of c s = true -> startsWith s p = false.
Proof.
  unfold startsWith. revert s.
  induction p as [|a p IH]; intros s Hp Hs; [discriminate|].
  destruct s as [|b s]; [reflexivity|]. simpl in *.
  apply andb_true_iff in Hs as [Hb Hs]. apply negb_true_iff in Hb.
  destruct (Ascii.eqb b a) eqn:E; [|reflexivity].
  apply Ascii.eqb_eq in E. subst b. rewrite Hb in Hp. simpl in Hp.
  now apply IH.
Qed.

(** X21. The indentation of the printed JSON keeps the lines of the text
    and their order and puts exactly two spaces before each one (an empty
    text is one empty line); splitting a text into lines and joining them
    again gives the text back. *)
Theorem indent_lines (text : string) :
  split_lines (indent text) = map (fun l => "  " +:+ l) (split_lines text)
  /\ join_lines (split_lines text) = text.
Proof.
  split.
  - unfold indent, split_lines.
    pose proof (split_from_nonempty "" text) as Hne.
    pose proof (split_from_free "" text eq_refl) as Hfree.
    destruct (split_from "" text) as [|l rest]; [congruence|].
    rewrite split_from_join.
    + simpl map. cbv iota. now rewrite append_nil_l.
    + discriminate.
    + apply Forall_map. eapply Forall_impl; [exact Hfree|].
      intros x Hx. simpl. rewrite free_of_app, Hx. reflexivity.
  - unfold split_lines. now rewrite join_split_from, append_nil_l.
Qed.

(** X22. On an ISO time [date T time Z], whose date and time parts hold
    no [T] and no [Z], [timestamp] yields the date, a space and the time. *)
Theorem timestamp_of_iso (date time : string) :
  free_of "T" date = true ->
  free_of "Z" date = true ->
  free_of "Z" time = true ->
  timestamp (date +:+ "T" +:+ time +:+ "Z") = date +:+ " " +:+ time.
Proof.
  intros HT HZ HZt. unfold timestamp.
  change ("T" +:+ time +:+ "Z") with (String "T" (time +:+ "Z")).
  rewrite (replace_first_char "T" " " date (time +:+ "Z") HT).
  rewrite <- !append_assoc.
  change "Z" with (String "Z" "") at 2.
  rewrite (replace_first_char "Z" "" ((date +:+ " ") +:+ time) "").
  - now rewrite !append_nil_r.
  - rewrite !free_of_app, HZ, HZt. reflexivity.
Qed.

Lemma timestamp_of_iso_witness :
  timestamp "2026-11-02T09:30:15.250Z" = "2026-11-02 09:30:15.250".
Proof.
  apply (timestamp_of_iso "2026-11-02" "09:30:15.250"); reflexivity.
Defined.

(** X23. [colorForEventType] goes by the family of the event type: what
    follows [session.], [tool.], [message.], [file.] or [permission.] does
    not matter, and a type without a dot, such as the fallback [unknown],
    gets the reset code. *)
Theorem colorForEventType_families :
  (forall rest, colorForEventType ("session." +:+ rest) = cyan)
  /\ (forall rest, colorForEventType ("tool." +:+ rest) = yellow)
  /\ (forall rest, colorForEventType ("message." +:+ rest) = magenta)
  /\ (forall rest, colorForEventType ("file." +:+ rest) = green)
  /\ (forall rest, colorForEventType ("permission." +:+ rest) = red)
  /\ (forall type, free_of "." type = true ->
                   colorForEventType type = reset).
Proof.
  repeat split; intros; unfold colorForEventType;
    try (unfold startsWith; autorewrite with str; reflexivity).
  now rewrite !(startsWith_free "." _ type) by (reflexivity || assumption).
Qed.

Section TestServerFacts.

Variable parse : string -> string + value.
Variable clock : Z -> string.
Variable pretty : value -> string.
Variable null_read_text : string.

Local Abbreviation handle' := (handle parse clock pretty null_read_text).
Local Abbreviation serve' := (serve parse clock pretty null_read_text).

(** X24. What the handler does with a request: anything but a POST is
    answered 405 and a POST whose body is not JSON 400, both without
    touching the counter or printing; a POST with a JSON body other than
    [null] is answered 200 after the counter went up by one and three
    entries were printed, the second being the header with the new number
    and the event's type; a POST with the body [null] makes the handler
    throw after the counter went up, with nothing printed. *)
Theorem handle_outcome (req : HttpRequest) (st : state) :
  match handle' req st with
  | (inr resp, st') =>
      (response_status resp = 405%Z /\ method req <> "POST" /\ st' = st)
      \/ (response_status resp = 400%Z /\ method req = "POST"
          /\ (exists e, parse (body_text req) = inl e) /\ st' = st)
      \/ (response_status resp = 200%Z /\ method req = "POST"
          /\ exists body,
               parse (body_text req) = inr body /\ body <> VNull
               /\ eventCount st' = (eventCount st + 1)%Z
               /\ console st'
                  = console st
                    ++ [divider;
                        header clock (eventCount st + 1) (event_type body);
                        dim +:+ indent (pretty body) +:+ reset])
  | (inl e, st') =>
      method req = "POST" /\ parse (body_text req) = inr VNull
      /\ err_text e = null_read_text
      /\ eventCount st' = (eventCount st + 1)%Z
      /\ console st' = console st
  end.
Proof.
  unfold handle.
  destruct (String.eqb (method req) "POST") eqn:Hm; simpl.
  - apply String.eqb_eq in Hm.
    destruct (parse (body_text req)) as [e|body] eqn:Hp.
    + right; left. eauto.
    + destruct body; simpl; try (right; right;
        repeat split; try assumption; eexists; repeat split;
        discriminate); auto.
  - apply String.eqb_neq in Hm. left. auto.
Qed.

Lemma handle_state (req : HttpRequest) (st : state) :
  eventCount (handle' req st).2
  = (eventCount st + (if reaches_print parse req then 1 else 0))%Z
  /\ exists printed,
       console (handle' req st).2 = console st ++ printed
       /\ length printed = if prints parse req then 3 else 0.
Proof.
  unfold handle, reaches_print, prints.
  destruct (String.eqb (method req) "POST"); simpl.
  - destruct (parse (body_text req)) as [e|body]; simpl.
    + split; [lia|]. exists []. now rewrite app_nil_r.
    + destruct body; simpl; (split; [reflexivity|]);
        first [ exists []; now rewrite app_nil_r
              | eexists; split; reflexivity ].
  - split; [lia|]. exists []. now rewrite app_nil_r.
Qed.

(** X25. Over any sequence of requests, the counter goes up by the number
    of POST requests with a JSON body, what was printed before stays, and
    three entries are printed for each POST whose JSON body is not
    [null]. *)
Theorem serve_counts (reqs : list HttpRequest) (st : state) :
  eventCount (serve' reqs st)
  = (eventCount st
     + Z.of_nat (length (List.filter (reaches_print parse) reqs)))%Z
  /\ exists printed,
       console (serve' reqs st) = console st ++ printed
       /\ length printed
          = 3 * length (List.filter (prints parse) reqs).
Proof.
  revert st. induction reqs as [|req rest IH]; intros st.
  - simpl. split; [lia|]. exists []. now rewrite app_nil_r.
  - simpl serve.
    destruct (IH (handle' req st).2) as [Hc (more & Hcon & Hlen)].
    destruct (handle_state req st) as [Hc1 (first & Hcon1 & Hlen1)].
    rewrite Hc, Hc1, Hcon, Hcon1. simpl List.filter. split.
    + destruct (reaches_print parse req); simpl length; lia.
    + exists (first ++ more). rewrite app_assoc. split; [reflexivity|].
      rewrite length_app, Hlen, Hlen1.
      destruct (prints parse req); simpl length; lia.
Qed.

Variable reason : Z -> string.

Context {Payload : Type}.
Variable JSON_stringify : Payload -> js_error + string.
Variable log : string -> LogExtra -> option js_error.

(** X26. A delivery of [pushToTarget] to the test server: when the payload
    serializes to a text the server reads as JSON other than [null] and at
    least one attempt is configured, the server answers the first request
    with 200, so the delivery is that single request, with no wait and no
    failure report. *)
Theorem pushToTarget_to_test_server (target : TargetConfig)
    (payload : Payload) (body : string) (v : value) (st : state) :
  JSON_stringify payload = inr body ->
  parse body = inr v ->
  v <> VNull ->
  (1 <= effective_attempts target)%Z ->
  (exists resp st',
     handle' (received (post_request target body)) st = (inr resp, st')
     /\ response_status resp = 200%Z)
  /\ pushToTarget JSON_stringify
       (answer parse clock pretty null_read_text reason st) log
       target payload []
     = (inr tt, [EvFetch (post_request target body)]).
Proof.
  intros Hbody Hparse Hv Hn.
  assert (Hh : exists st',
             handle' (received (post_request target body)) st
             = (inr {| response_status := 200;
                       response_body := "OK" +:+ String newline "" |}, st')).
  { unfold handle. simpl. rewrite Hparse.
    destruct v; try congruence; simpl; eexists; reflexivity. }
  destruct Hh as [st' Hh]. split.
  - eexists _, st'. split; [exact Hh | reflexivity].
  - unfold pushToTarget.
    rewrite (loop_success JSON_stringify _ log target payload body
               {| ok := true; status := 200; statusText := reason 200 |}
               Hbody eq_refl 0
               (Z.to_nat (effective_attempts target)) 0%Z []);
      try lia; try reflexivity;
      try (intros j Hj; simpl in Hj; lia).
    unfold answer. rewrite Hh. reflexivity.
Qed.

End TestServerFacts.

Lemma pushToTarget_to_test_server_witness :
  pushToTarget (Payload := string) inr
    (answer Sample.parse (fun _ => "2026-11-02T09:30:15.250Z")
            (fun _ => "{}") "" (fun _ => "OK")
            {| eventCount := 0; console := [] |})
    log_rejects sample_target "{}" []
  = (inr tt, [EvFetch (post_request sample_target "{}")]).
Proof.
  apply (pushToTarget_to_test_server Sample.parse
           (fun _ => "2026-11-02T09:30:15.250Z") (fun _ => "{}") ""
           (fun _ => "OK") (Payload := string) inr log_rejects
           sample_target "{}" "{}" (VObj None [])
           {| eventCount := 0; console := [] |}).
  - reflexivity.
  - vm_compute. reflexivity.
  - discriminate.
  - vm_compute. discriminate.
Defined.

(** ** Substitution in terms of the variables that are set *)

Lemma expand_env_of (variables : string -> option string)
    (native_text : string -> string) (ps : list piece) :
  Forall (fun p => match p with
                   | Token name => variables name = None ->
                                   inherits name = false
                   | Chr _ => True
                   end) ps ->
  expand (env_of variables native_text) ps = expand variables ps.
Proof.
  induction 1 as [|[c|name] ps Hp _ IH]; simpl; [reflexivity | |].
  - now rewrite IH.
  - rewrite IH. f_equal. unfold env_of, inherited_text.
    destruct (variables name); [reflexivity|].
    now rewrite Hp.
Qed.

(** X27. A string splits, from the left, into tokens [{env:NAME}] (NAME
    one or more characters other than [}]) and characters outside tokens.
    When no token names a member of [Object.prototype] without a variable
    of that name being set, the result of [interpolate] is the same
    sequence with every token replaced by the value of variable NAME, or by
    the empty string when it is not set, and every other character kept. *)
Theorem interpolate_tokens_of_variables
    (variables : string -> option string) (native_text : string -> string)
    (s : string) :
  exists ps,
    render ps = s /\ leftmost ps /\
    (Forall (fun p => match p with
                      | Token name => variables name = None ->
                                      inherits name = false
                      | Chr _ => True
                      end) ps ->
     interpolate (env_of variables native_text) (VStr s)
     = VStr (expand variables ps)).
Proof.
  destruct (interpolate_string_tokens (env_of variables native_text) s)
    as (ps & Hr & Hl & Hi).
  exists ps. repeat split; [exact Hr | exact Hl |].
  intros Hplain. now rewrite Hi, expand_env_of.
Qed.
